(** * CryptoPricePredictor: indicator library, signal fusion and prediction ledger

    A shallow embedding of the forecasting core of [app.js]: the technical
    indicators ([ema], [sma], [calcRSI], [calcMACD], [calcBollinger],
    [calcStochastic], [calcATR]), the fusion function [computePrediction] and
    the prediction history ([recordPrediction], [resolveHistory],
    [getHistoryStats]); further the read-through cache ([cached]), the
    altcoin list ([isExcluded], [filterAndSortAlts]), the rows of the
    history table ([renderHistory]) and the geometry of [drawSparkline].

    Modelling conventions.
    - A JavaScript number is an exact rational ([Q]); rounding is not
      modelled.  Equality of numbers ([===]) is equality of values
      ([Qeq_bool]), not of representations.  What is stated of a computed
      value is therefore an order fact that rounding to nearest preserves,
      or an equation between values the code obtains by the same
      operations; a division by zero, which the code turns into [Infinity]
      or [NaN], is excluded by hypothesis wherever a statement depends on
      its result.
    - [null] in an array of numbers is [None]; [x || y] on such a value takes
      [y] when [x] is [null] or [0].
    - Reading an array out of range gives [undefined] in JavaScript.  The
      engine's callers pass non-empty candle arrays of equal length, so such a
      read never happens there; in the embedding it yields [0], and every
      statement that depends on a value read from an array names the
      hypothesis it needs.
    - [Date.now()] is an explicit argument, [history] and [coinData] are
      passed and returned explicitly.  [saveHistory()] only writes the
      store and never changes [history]; it is modelled on its own and its
      calls are left out of [recordPrediction] and [resolveHistory].
    - [Math.sqrt] is a section variable: the rationals are not closed under
      square roots, and no statement below depends on which function it is. *)

From Stdlib Require Import ZArith QArith Qabs Qminmax Lia Lqa.
From stdpp Require Import base option list strings gmap.

Local Open Scope Q_scope.

(** ** Numbers *)

Definition Qleb (x y : Q) : bool := Qle_bool x y.
Definition Qltb (x y : Q) : bool := negb (Qle_bool y x).
Definition Qeqb (x y : Q) : bool := Qeq_bool x y.

(** [l[i]] for an array of numbers. *)
Definition get (l : list Q) (i : nat) : Q := default 0 (l !! i).

(** [l[l.length-1]]. *)
Definition lastOf (l : list Q) : Q := default 0 (last l).

(** [x || y] where [x] is a number or [null]. *)
Definition orElse (x : option Q) (y : Q) : Q :=
  match x with
  | Some v => if Qeqb v 0 then y else v
  | None => y
  end.

(** [x ?? y]. *)
Definition nullish (x : option Q) (y : Q) : Q := default y x.

(** The indices [lo, lo+1, ..., hi] of a [for (j = lo; j <= hi; j++)] loop. *)
Definition upto (lo hi : nat) : list nat := seq lo (hi + 1 - lo)%nat.

(** ** Technical indicators *)

Module Indicators.

Fixpoint ema_from (k prev : Q) (rest : list Q) : list Q :=
  match rest with
  | [] => []
  | x :: t => let v := x * k + prev * (1 - k) in v :: ema_from k v t
  end.

Definition ema (data : list Q) (period : Q) : list Q :=
  let k := 2 / (period + 1) in
  get data 0 :: ema_from k (get data 0) (tail data).

Definition sma (data : list Q) (period : nat) : list (option Q) :=
  map (fun i =>
         if (i <? period - 1)%nat then None
         else
           let s := fold_left (fun s j => s + get data j)
                              (upto (i + 1 - period) i) 0 in
           Some (s / inject_Z (Z.of_nat period)))
      (seq 0 (length data)).

Record RSI := { rsi_value : Q; rsi_series : list Q }.

(** The seeding loop [for (i = 1; i <= period; i++)]: sums of gains and of
    losses. *)
Definition rsi_seed (data : list Q) (period : nat) : Q * Q :=
  fold_left (fun '(gS, lS) i =>
               let d := get data i - get data (i - 1) in
               if Qleb 0 d then (gS + d, lS) else (gS, lS - d))
            (upto 1 period) (0, 0).

(** One iteration of the smoothing loop; the state is [(ag, al, series)]. *)
Definition rsi_step (data : list Q) (p : Q) (st : Q * Q * list Q) (i : nat)
  : Q * Q * list Q :=
  let '(ag, al, series) := st in
  let d := get data i - get data (i - 1) in
  let ag' := (ag * (p - 1) + Qmax d 0) / p in
  let al' := (al * (p - 1) + Qmax (- d) 0) / p in
  (ag', al',
   series ++ [if Qeqb al' 0 then 100 else 100 - 100 / (1 + ag' / al')]).

Definition rsi_run (data : list Q) (period : nat) : Q * Q * list Q :=
  let p := inject_Z (Z.of_nat period) in
  let '(gS, lS) := rsi_seed data period in
  fold_left (rsi_step data p)
            (seq (period + 1) (length data - (period + 1)))
            (gS / p, lS / p, replicate (period + 1) 50).

Definition calcRSI (data : list Q) (period : nat) : RSI :=
  if (length data <? period + 1)%nat then
    {| rsi_value := 50; rsi_series := [] |}
  else
    let '(_, _, series) := rsi_run data period in
    {| rsi_value := lastOf series; rsi_series := series |}.

Record MACD := {
  macd_line : Q; macd_signal : Q; macd_histogram : Q; macd_histSeries : list Q
}.

Definition calcMACD (data : list Q) : MACD :=
  let e12 := ema data 12 in
  let e26 := ema data 26 in
  let line := imap (fun i v => v - get e26 i) e12 in
  let sig := ema line 9 in
  let hist := imap (fun i v => v - get sig i) line in
  {| macd_line := lastOf line; macd_signal := lastOf sig;
     macd_histogram := lastOf hist; macd_histSeries := hist |}.

Record Bollinger := {
  bb_upper : list (option Q); bb_mid : list (option Q);
  bb_lower : list (option Q);
  bbWidth : Q; pctB : Q; lastUpper : Q; lastLower : Q; lastMid : Q
}.

Section WithSqrt.

Variable sqrt : Q -> Q.

(** The band at index [i]: [(upper, lower)], both [null] while the moving
    average is. *)
Definition bb_band (data : list Q) (period : nat) (mult : Q)
           (i : nat) (m : option Q) : option Q * option Q :=
  match m with
  | None => (None, None)
  | Some mi =>
      let v := fold_left (fun v j => v + (get data j - mi) ^ 2)
                         (upto (i + 1 - period) i) 0 in
      let std := sqrt (v / inject_Z (Z.of_nat period)) in
      (Some (mi + mult * std), Some (mi - mult * std))
  end.

Definition calcBollinger (data : list Q) (period : nat) (mult : Q)
  : Bollinger :=
  let mid := sma data period in
  let bands := imap (bb_band data period mult) mid in
  let upper := bands.*1 in
  let lower := bands.*2 in
  let lu := orElse (mjoin (last upper)) (lastOf data * 1.02) in
  let ll := orElse (mjoin (last lower)) (lastOf data * 0.98) in
  let lm := orElse (mjoin (last mid)) (lastOf data) in
  {| bb_upper := upper; bb_mid := mid; bb_lower := lower;
     bbWidth := (lu - ll) / lm;
     pctB := (lastOf data - ll) / orElse (Some (lu - ll)) 1;
     lastUpper := lu; lastLower := ll; lastMid := lm |}.

End WithSqrt.

Record Stochastic := { stoch_k : Q; stoch_d : Q }.

(** [Math.max(hh, x)] and [Math.min(ll, x)] on accumulators that start at
    [-Infinity] and [Infinity] ([None]). *)
Definition maxInto (hh : option Q) (x : Q) : option Q :=
  Some (match hh with None => x | Some h => Qmax h x end).
Definition minInto (ll : option Q) (x : Q) : option Q :=
  Some (match ll with None => x | Some l => Qmin l x end).

Definition stoch_kAt (highs lows closes : list Q) (kP i : nat) : Q :=
  if (i <? kP - 1)%nat then 50
  else
    let w := upto (i + 1 - kP) i in
    let hh := fold_left (fun hh j => maxInto hh (get highs j)) w None in
    let ll := fold_left (fun ll j => minInto ll (get lows j)) w None in
    match hh, ll with
    | Some hh, Some ll =>
        if Qeqb hh ll then 50 else ((get closes i - ll) / (hh - ll)) * 100
    | _, _ => 0  (* empty window: only for [kP = 0], never called so *)
    end.

Definition calcStochastic (highs lows closes : list Q) (kP dP : nat)
  : Stochastic :=
  let kV := map (stoch_kAt highs lows closes kP) (seq 0 (length closes)) in
  let dV := sma (map (fun v => nullish (Some v) 50) kV) dP in
  {| stoch_k := lastOf kV; stoch_d := nullish (mjoin (last dV)) 50 |}.

Record ATR := { atr_value : Q; atr_series : list Q }.

Definition trueRange (highs lows closes : list Q) (i : nat) : Q :=
  Qmax (Qmax (get highs i - get lows i)
             (Qabs (get highs i - get closes (i - 1))))
       (Qabs (get lows i - get closes (i - 1))).

Definition calcATR (highs lows closes : list Q) (period : Q) : ATR :=
  let trs := (get highs 0 - get lows 0)
             :: map (trueRange highs lows closes)
                    (seq 1 (length closes - 1)) in
  let atr := ema trs period in
  {| atr_value := lastOf atr; atr_series := atr |}.

End Indicators.

(** ** Prediction engine *)

Module Engine.
Import Indicators.

Inductive Direction := bullish | bearish | neutral.

Global Instance Direction_eq_dec : EqDecision Direction.
Proof. solve_decision. Defined.

Record Signal := { value : Q; direction : Direction; strength : Q }.

(** The object literal [signals]; its keys in insertion order. *)
Record Signals := {
  EMA : Signal; RSI : Signal; MACD : Signal; BB : Signal;
  Stoch : Signal; ATR : Signal; MeanRev : Signal
}.

Definition Object_values (s : Signals) : list Signal :=
  [EMA s; RSI s; MACD s; BB s; Stoch s; ATR s; MeanRev s].

Record Prediction := {
  oneMinute : Q; oneDay : Q; rsi : Q;
  macd : Indicators.MACD; bb : Bollinger; stoch : Stochastic;
  atr : Q; atrPct : Q;
  ema8Last : Q; ema21Last : Q; ema50Last : Q;
  signals : Signals; overall : Direction
}.

Definition emaSignalOf (price : Q) (hCloses : list Q) : Q :=
  let ema8 := ema hCloses 8 in
  let ema21 := ema hCloses 21 in
  let ema50 := ema hCloses 50 in
  let emaCross821 := (lastOf ema8 - lastOf ema21) / price in
  let emaCross2150 := (lastOf ema21 - lastOf ema50) / price in
  emaCross821 * 0.6 + emaCross2150 * 0.4.

Definition rsiSignalOf (v : Q) : Q :=
  if Qltb 75 v then - (v - 70) / 100
  else if Qltb 60 v then - (v - 60) / 200
  else if Qltb v 25 then (30 - v) / 100
  else if Qltb v 40 then (40 - v) / 200
  else 0.

Definition bbSignalOf (pctB : Q) : Q :=
  if Qltb 0.95 pctB then - (pctB - 0.8) * 0.5
  else if Qltb pctB 0.05 then (0.2 - pctB) * 0.5
  else (0.5 - pctB) * 0.1.

Definition stochSignalOf (st : Stochastic) : Q :=
  if Qltb 80 (stoch_k st) && Qltb (stoch_d st) (stoch_k st) then - 0.02
  else if Qltb (stoch_k st) 20 && Qltb (stoch_k st) (stoch_d st) then 0.02
  else 0.

(** The daily average is a number other than 0 for the positive daily
    closes of a market; the statements that depend on this signal's value
    assume them. *)
Definition meanRevSignalOf (price : Q) (dCloses : list Q) : Q :=
  let dailyAvg := fold_left (fun s v => s + v) dCloses 0
                  / inject_Z (Z.of_nat (length dCloses)) in
  (dailyAvg - price) / dailyAvg.

Definition mRawOf (emaS rsiS macdS bbS stochS meanRevS : Q) : Q :=
  emaS * 0.30 + rsiS * 0.10 + macdS * 0.25 + bbS * 0.15
  + stochS * 0.10 + meanRevS * 0.05.

Definition dRawOf (emaS rsiS macdS bbS stochS meanRevS : Q) : Q :=
  emaS * 0.20 + rsiS * 0.15 + macdS * 0.15 + bbS * 0.15
  + stochS * 0.10 + meanRevS * 0.20.

(** [c > 0 ? "bullish" : c < 0 ? "bearish" : "neutral"]. *)
Definition threeWay (x : Q) : Direction :=
  if Qltb 0 x then bullish else if Qltb x 0 then bearish else neutral.

Definition count (d : Direction) (l : list Signal) : nat :=
  length (filter (fun s => direction s = d) l).

Section WithSqrt.

Variable sqrt : Q -> Q.

Definition computePrediction (price : Q) (hCloses dCloses hHighs hLows : list Q)
  : Prediction :=
  let emaSignal := emaSignalOf price hCloses in
  let rsiData := calcRSI hCloses 14 in
  let rsiSignal := rsiSignalOf (rsi_value rsiData) in
  let macd := calcMACD hCloses in
  let macdSignal := macd_histogram macd / price in
  let bb := calcBollinger sqrt hCloses 20 2 in
  let bbSignal := bbSignalOf (pctB bb) in
  let stoch := calcStochastic hHighs hLows hCloses 14 3 in
  let stochSignal := stochSignalOf stoch in
  let atr := calcATR hHighs hLows hCloses 14 in
  let atrPct := atr_value atr / price in
  let meanRevSignal := meanRevSignalOf price dCloses in
  let mRaw := mRawOf emaSignal rsiSignal macdSignal bbSignal stochSignal
                     meanRevSignal in
  let oneMinute := price * (1 + mRaw * Qmin (atrPct * 8) 0.03) in
  let dRaw := dRawOf emaSignal rsiSignal macdSignal bbSignal stochSignal
                     meanRevSignal in
  let oneDay := price * (1 + dRaw * Qmin (atrPct * 80) 0.15) in
  let signals :=
    {| EMA := {| value := emaSignal;
                 direction := if Qleb 0 emaSignal then bullish else bearish;
                 strength := Qmin (Qabs emaSignal * 500) 100 |};
       RSI := {| value := rsi_value rsiData;
                 direction := threeWay rsiSignal;
                 strength := Qmin (Qabs rsiSignal * 400) 100 |};
       MACD := {| value := macd_histogram macd;
                  direction := if Qleb 0 (macd_histogram macd)
                               then bullish else bearish;
                  strength := Qmin (Qabs macdSignal * 2000) 100 |};
       BB := {| value := pctB bb;
                direction := threeWay bbSignal;
                strength := Qmin (Qabs bbSignal * 300) 100 |};
       Stoch := {| value := stoch_k stoch;
                   direction := threeWay stochSignal;
                   strength := Qabs stochSignal * 2500 |};
       ATR := {| value := atr_value atr;
                 direction := neutral;
                 strength := Qmin (atrPct * 1000) 100 |};
       MeanRev := {| value := meanRevSignal;
                     direction := if Qltb 0 meanRevSignal
                                  then bullish else bearish;
                     strength := Qmin (Qabs meanRevSignal * 300) 100 |} |} in
  let bull := count bullish (Object_values signals) in
  let bear := count bearish (Object_values signals) in
  let overall := if (bear <? bull)%nat then bullish
                 else if (bull <? bear)%nat then bearish else neutral in
  {| oneMinute := oneMinute; oneDay := oneDay; rsi := rsi_value rsiData;
     macd := macd; bb := bb; stoch := stoch;
     atr := atr_value atr; atrPct := atrPct;
     ema8Last := lastOf (ema hCloses 8); ema21Last := lastOf (ema hCloses 21);
     ema50Last := lastOf (ema hCloses 50);
     signals := signals; overall := overall |}.

End WithSqrt.

End Engine.

(** ** Prediction history *)

Module Ledger.

Local Open Scope Z_scope.

Record Coin := { coin_id : string; symbol : string; name : string }.

Definition COINS : list Coin :=
  [ {| coin_id := "BTC"; symbol := "BTCUSDT"; name := "Bitcoin" |};
    {| coin_id := "ETH"; symbol := "ETHUSDT"; name := "Ethereum" |};
    {| coin_id := "SOL"; symbol := "SOLUSDT"; name := "Solana" |} ].

Definition MAX_HISTORY : nat := 100.

(** The part of [coinData[id]] the history reads: the last ticker, absent
    until the first successful refresh of that coin; [lastPrice] is the
    ticker's price as read by [parseFloat]. *)
Record Ticker := { lastPrice : Q }.
Record CoinData := { ticker : option Ticker }.

Record Entry := {
  ts : Z; coin : string; price : Q; pred1m : Q; pred1d : Q;
  actual1m : option Q; actual1mTs : option Z;
  actual1d : option Q; actual1dTs : option Z
}.

(** [arr.slice(-n)]. *)
Definition slice_last {A} (n : nat) (arr : list A) : list A :=
  drop (length arr - n) arr.

(** The array [saveHistory] writes to the store, and what [loadHistory]
    makes of the store's content ([None]: nothing stored, or not parseable). *)
Definition saveHistory (history : list Entry) : list Entry :=
  slice_last MAX_HISTORY history.

Definition loadHistory (stored : option (list Entry)) : list Entry :=
  default [] stored.

(** [[...history].reverse().find(h => h.coin === coinId)]. *)
Definition lastFor (coinId : string) (history : list Entry) : option Entry :=
  snd <$> list_find (fun h => coin h = coinId) (reverse history).

Definition newEntry (now : Z) (coinId : string) (price pred1m pred1d : Q)
  : Entry :=
  {| ts := now; coin := coinId; price := price;
     pred1m := pred1m; pred1d := pred1d;
     actual1m := None; actual1mTs := None;
     actual1d := None; actual1dTs := None |}.

(** [now] is the clock read by the guard, [now'] the one read for the new
    entry's [ts]. *)
Definition recordPrediction (now now' : Z) (coinId : string)
           (price pred1m pred1d : Q) (history : list Entry) : list Entry :=
  let pushed := history ++ [newEntry now' coinId price pred1m pred1d] in
  let capped := if (MAX_HISTORY <? length pushed)%nat
                then slice_last MAX_HISTORY pushed else pushed in
  match lastFor coinId history with
  | Some last => if bool_decide (now - ts last < 55000) then history else capped
  | None => capped
  end.

(** [coin && coinData[coin.id]?.ticker], then [parseFloat(...lastPrice)]. *)
Definition tickerPrice (coinData : gmap string CoinData) (c : string)
  : option Q :=
  match list_find (fun k => coin_id k = c) COINS with
  | Some (_, k) =>
      match coinData !! coin_id k with
      | Some {| ticker := Some t |} => Some (lastPrice t)
      | _ => None
      end
  | None => None
  end.

Definition resolve1m (now : Z) (coinData : gmap string CoinData) (e : Entry)
  : Entry :=
  if bool_decide (actual1m e = None) && bool_decide (60000 <= now - ts e) then
    match tickerPrice coinData (coin e) with
    | Some p =>
        {| ts := ts e; coin := coin e; price := price e;
           pred1m := pred1m e; pred1d := pred1d e;
           actual1m := Some p; actual1mTs := Some now;
           actual1d := actual1d e; actual1dTs := actual1dTs e |}
    | None => e
    end
  else e.

Definition resolve1d (now : Z) (coinData : gmap string CoinData) (e : Entry)
  : Entry :=
  if bool_decide (actual1d e = None) && bool_decide (86400000 <= now - ts e)
  then
    match tickerPrice coinData (coin e) with
    | Some p =>
        {| ts := ts e; coin := coin e; price := price e;
           pred1m := pred1m e; pred1d := pred1d e;
           actual1m := actual1m e; actual1mTs := actual1mTs e;
           actual1d := Some p; actual1dTs := Some now |}
    | None => e
    end
  else e.

(** The body of the [for (const entry of history)] loop. *)
Definition resolveEntry (now : Z) (coinData : gmap string CoinData)
           (e : Entry) : Entry :=
  resolve1d now coinData (resolve1m now coinData e).

Definition resolveHistory (now : Z) (coinData : gmap string CoinData)
           (history : list Entry) : list Entry :=
  map (resolveEntry now coinData) history.

Record Stats := {
  total : nat; resolved1m : nat; resolved1d : nat;
  accuracy1m : option Q; accuracy1d : option Q;
  avgErr1m : option Q; avgErr1d : option Q
}.

(** A [null] actual reads as [0] in arithmetic and comparisons. *)
Definition num (x : option Q) : Q := default 0%Q x.

Definition dirOf (x base : Q) : Z := if Qleb base x then 1 else -1.

(** One iteration of a scoring loop; the state is [(hit, totalErr)]. *)
Definition score (pred : Entry -> Q) (actual : Entry -> option Q)
           (st : nat * Q) (h : Entry) : nat * Q :=
  let '(hit, totalErr) := st in
  let predDir := dirOf (pred h) (price h) in
  let actDir := dirOf (num (actual h)) (price h) in
  ((if bool_decide (predDir = actDir) then S hit else hit),
   (totalErr + Qabs (pred h - num (actual h)) / price h * 100)%Q).

Definition nat2Q (n : nat) : Q := inject_Z (Z.of_nat n).

Definition getHistoryStats (flt : string) (history : list Entry) : Stats :=
  let items := if bool_decide (flt = "ALL") then history
               else filter (fun h => coin h = flt) history in
  let res1m := filter (fun h => actual1m h <> None) items in
  let res1d := filter (fun h => actual1d h <> None) items in
  let '(hit1m, totalErr1m) := fold_left (score pred1m actual1m) res1m (O, 0%Q) in
  let '(hit1d, totalErr1d) := fold_left (score pred1d actual1d) res1d (O, 0%Q) in
  {| total := length items;
     resolved1m := length res1m; resolved1d := length res1d;
     accuracy1m := if (0 <? length res1m)%nat
                   then Some (nat2Q hit1m / nat2Q (length res1m) * 100)%Q
                   else None;
     accuracy1d := if (0 <? length res1d)%nat
                   then Some (nat2Q hit1d / nat2Q (length res1d) * 100)%Q
                   else None;
     avgErr1m := if (0 <? length res1m)%nat
                 then Some (totalErr1m / nat2Q (length res1m))%Q else None;
     avgErr1d := if (0 <? length res1d)%nat
                 then Some (totalErr1d / nat2Q (length res1d))%Q else None |}.

End Ledger.

(** ** Vocabulary of the statements *)

Module LedgerSpec.
Import Ledger.

Local Open Scope Z_scope.

Inductive Horizon := Short | Long.

Definition duration (hz : Horizon) : Z :=
  match hz with Short => 60000 | Long => 86400000 end.

Definition actual (hz : Horizon) (e : Entry) : option Q :=
  match hz with Short => actual1m e | Long => actual1d e end.

Definition resolvedAt (hz : Horizon) (e : Entry) : option Z :=
  match hz with Short => actual1mTs e | Long => actual1dTs e end.

Definition pending (hz : Horizon) (e : Entry) : Prop := actual hz e = None.

(** What an entry records when it is created: the fields [resolveHistory]
    has no business with. *)
Definition recorded (e : Entry) : Z * string * Q * Q * Q :=
  (ts e, coin e, price e, pred1m e, pred1d e).

(** The most recent entry of an asset, in the words of the specification:
    the last entry of the ledger that belongs to it. *)
Definition mostRecent (coinId : string) (history : list Entry)
  : option Entry :=
  last (filter (fun h => coin h = coinId) history).

(** The asset has an entry, and its most recent one is younger than the
    minimum spacing of 55 seconds. *)
Definition throttled (now : Z) (coinId : string) (history : list Entry)
  : Prop :=
  exists e, mostRecent coinId history = Some e /\ now - ts e < 55000.

(** The ways the application changes the ledger: a recording, a resolve
    pass, and the clear button ([history = []]). *)
Inductive Op :=
  | Record (now now' : Z) (coinId : string) (price pred1m pred1d : Q)
  | Resolve (now : Z) (coinData : gmap string CoinData)
  | Clear.

Definition step (history : list Entry) (o : Op) : list Entry :=
  match o with
  | Record now now' c p m d => recordPrediction now now' c p m d history
  | Resolve now cd => resolveHistory now cd history
  | Clear => []
  end.

Definition run (ops : list Op) (history : list Entry) : list Entry :=
  fold_left step ops history.

End LedgerSpec.

Module IndicatorSpec.
Import Indicators.

(** The Wilder-smoothed average loss when [calcRSI]'s loops are done. *)
Definition finalAvgLoss (data : list Q) (period : nat) : Q :=
  (rsi_run data period).1.2.

End IndicatorSpec.

Module EngineSpec.
Import Indicators Engine.

(** The input contract of the engine (section 6 of the specification): a
    positive current price, non-empty hourly close, high and low series of
    one length, and a non-empty daily close series. *)
Definition valid_input (price : Q) (hCloses dCloses hHighs hLows : list Q)
  : Prop :=
  0 < price /\ hCloses <> [] /\
  length hHighs = length hCloses /\ length hLows = length hCloses /\
  dCloses <> [].

(** The composite scores, read back from the returned prediction. *)
Definition rawShort (price : Q) (p : Prediction) : Q :=
  mRawOf (value (EMA (signals p))) (rsiSignalOf (rsi p))
         (macd_histogram (macd p) / price) (bbSignalOf (pctB (bb p)))
         (stochSignalOf (stoch p)) (value (MeanRev (signals p))).

Definition rawLong (price : Q) (p : Prediction) : Q :=
  dRawOf (value (EMA (signals p))) (rsiSignalOf (rsi p))
         (macd_histogram (macd p) / price) (bbSignalOf (pctB (bb p)))
         (stochSignalOf (stoch p)) (value (MeanRev (signals p))).

(** Both forecasts within their caps of the current price: 3% and 15%. *)
Definition within_caps (price : Q) (p : Prediction) : Prop :=
  Qabs (oneMinute p / price - 1) <= 0.03 /\
  Qabs (oneDay p / price - 1) <= 0.15.

(** The sign of a signal as a direction, in the words of the specification:
    bullish when strictly positive, bearish when strictly negative, neutral
    at exactly 0. *)
Definition signDirection (x : Q) : Direction :=
  match x ?= 0 with
  | Gt => bullish
  | Lt => bearish
  | Eq => neutral
  end.

Inductive IndicatorKind :=
  kEMA | kRSI | kMACD | kBB | kStoch | kATR | kMeanRev.

Definition allKinds : list IndicatorKind :=
  [kEMA; kRSI; kMACD; kBB; kStoch; kATR; kMeanRev].

Definition signalOf (k : IndicatorKind) (s : Signals) : Signal :=
  match k with
  | kEMA => EMA s | kRSI => RSI s | kMACD => MACD s | kBB => BB s
  | kStoch => Stoch s | kATR => ATR s | kMeanRev => MeanRev s
  end.

(** How many of the seven indicators point in direction [d]. *)
Definition votes (d : Direction) (s : Signals) : nat :=
  length (filter (fun k => direction (signalOf k s) = d) allKinds).

(** The majority of the bullish and bearish votes; a tie is neutral. *)
Definition majority (s : Signals) : Direction :=
  match Nat.compare (votes bullish s) (votes bearish s) with
  | Gt => bullish
  | Lt => bearish
  | Eq => neutral
  end.

End EngineSpec.

(** ** Read-through cache *)

From stdpp Require pretty sorting.

Module Cache.

Local Open Scope Z_scope.

Definition CACHE_TTL : Z := 20000.

Section WithData.

Context {D : Type}.

(** A value of the [cache] map: [{ ts, data }]. *)
Record CacheEntry := { ts : Z; data : D }.

(** [cached(key, ttl, fn)].  [now] is the clock read on entry.  [fn] is only
    called on a miss; [fetched] is how the promise it returns settles
    ([None]: rejected) and [now'] the clock read when it resolves.  The
    result is how the returned promise settles, with the cache afterwards.
    Calls are taken one after the other: a call made while another fetch
    for the same key is still pending is outside the embedding. *)
Definition cached (now now' : Z) (key : string) (ttl : Z) (fetched : option D)
           (cache : gmap string CacheEntry)
  : option D * gmap string CacheEntry :=
  let miss :=
    match fetched with
    | Some d => (Some d, <[key := {| ts := now'; data := d |}]> cache)
    | None => (None, cache)
    end in
  match cache !! key with
  | Some e => if bool_decide (now - ts e < ttl) then (Some (data e), cache)
              else miss
  | None => miss
  end.

End WithData.

Global Arguments CacheEntry : clear implicits.

(** The keys of [getTicker], [getKlines] and [fetchAllTickers]. *)
Definition tickerKey (sym : string) : string := "t:" +:+ sym.

Definition klinesKey (sym interval : string) (limit : nat) : string :=
  "k:" +:+ sym +:+ ":" +:+ interval +:+ ":" +:+ pretty.pretty limit.

Definition allTickersKey : string := "all-tickers".

End Cache.

(** ** Hot altcoin list *)

Module Alts.

Local Open Scope Q_scope.

(** The fields of a 24h ticker the list reads, the numeric ones as read by
    [parseFloat]. *)
Record AltTicker := {
  symbol : string; quoteVolume : Q; priceChangePercent : Q; lastPrice : Q
}.

Definition EXCLUDE_SYMBOLS : list string :=
  [ "USDCUSDT"; "BUSDUSDT"; "TUSDUSDT"; "DAIUSDT"; "FDUSDUSDT"; "USDPUSDT";
    "EURUSDT";
    "BTCDOWNUSDT"; "BTCUPUSDT"; "ETHDOWNUSDT"; "ETHUPUSDT";
    "BTCUSDT"; "ETHUSDT"; "SOLUSDT" ].

(** [s.slice(n)]. *)
Fixpoint dropChars (n : nat) (s : string) : string :=
  match n, s with
  | O, _ => s
  | S n, String _ s => dropChars n s
  | S _, EmptyString => EmptyString
  end.

(** [s.replace(pat, rep)] for a string pattern: the first occurrence only. *)
Fixpoint replaceFirst (pat rep s : string) : string :=
  if String.prefix pat s then rep +:+ dropChars (String.length pat) s
  else match s with
       | EmptyString => EmptyString
       | String c s => String c (replaceFirst pat rep s)
       end.

Definition startsWith (s pre : string) : bool := String.prefix pre s.

(** [s.endsWith(suf)], also the regular expression [/suf$/]. *)
Definition endsWith (s suf : string) : bool :=
  String.prefix (String.rev suf) (String.rev s).

Definition isExcluded (sym : string) : bool :=
  if bool_decide (sym ∈ EXCLUDE_SYMBOLS) then true
  else
    let base := replaceFirst "USDT" "" sym in
    endsWith base "UP" || endsWith base "DOWN" || endsWith base "BEAR"
    || endsWith base "BULL" || startsWith base "USD".

(** [arr.sort(cmp)] for a comparator that is a difference of keys: the
    stable sort ([x] goes before the first [y] with [cmp(x, y) <= 0]). *)
Fixpoint insertBy {A} (cmp : A -> A -> Q) (x : A) (l : list A) : list A :=
  match l with
  | [] => [x]
  | y :: l' => if Qleb (cmp x y) 0 then x :: l else y :: insertBy cmp x l'
  end.

Definition sortBy {A} (cmp : A -> A -> Q) (l : list A) : list A :=
  foldr (insertBy cmp) [] l.

Definition eligible (t : AltTicker) : bool :=
  if negb (endsWith (symbol t) "USDT") then false
  else if isExcluded (symbol t) then false
  else if Qltb (quoteVolume t) 1000000 then false
  else true.

Definition filterAndSortAlts (altSortMode : string) (tickers : list AltTicker)
  : list AltTicker :=
  let alts := List.filter eligible tickers in
  let sorted :=
    if bool_decide (altSortMode = "gainers") then
      sortBy (fun a b => (priceChangePercent b - priceChangePercent a)%Q) alts
    else if bool_decide (altSortMode = "losers") then
      sortBy (fun a b => (priceChangePercent a - priceChangePercent b)%Q) alts
    else
      sortBy (fun a b => (quoteVolume b - quoteVolume a)%Q) alts in
  take 12 sorted.

End Alts.

(** ** Sparkline geometry *)

Module Chart.

Local Open Scope Q_scope.

(** [Math.min(...data)] and [Math.max(...data)] of a non-empty array. *)
Definition minOf (data : list Q) : Q := foldr Qmin (get data 0) data.
Definition maxOf (data : list Q) : Q := foldr Qmax (get data 0) data.

(** The numbers [drawSparkline] computes before it draws: the points of the
    line over the last 48 closes on a canvas of width [W] and height [H],
    [None] when it returns without drawing.  The canvas calls themselves are
    not modelled. *)
Definition sparklinePoints (closes : list Q) (W H : Q)
  : option (list (Q * Q)) :=
  let data := drop (length closes - 48) closes in
  if (length data <? 2)%nat then None
  else
    let min := minOf data * 0.9995 in
    let max := maxOf data * 1.0005 in
    let range := orElse (Some (max - min)) 1 in
    let toX (i : nat) := (inject_Z (Z.of_nat i)
                          / inject_Z (Z.of_nat (length data - 1))) * W in
    let toY (v : Q) := H - ((v - min) / range) * (H - 4) - 2 in
    Some (imap (fun i v => (toX i, toY v)) data).

End Chart.

(** ** The history table *)

Module HistoryTable.
Import Ledger.

Local Open Scope Q_scope.

(** A table row of [renderHistory]: the entry it shows and, per horizon, the
    result label and its CSS class.  The formatted cells are left out. *)
Record Row := {
  shown : Entry;
  m1Result : string; m1Cls : string;
  d1Result : string; d1Cls : string
}.

Definition resultOf (pred : Q) (actual : option Q) (price : Q) : string :=
  match actual with
  | Some a =>
      if bool_decide (dirOf pred price = dirOf a price) then "적중"
      else "실패"
  | None => "대기중"
  end.

Definition classOf (result : string) : string :=
  if bool_decide (result = "적중") then "result-hit"
  else if bool_decide (result = "실패") then "result-miss"
  else "result-pending".

(** The rows [renderHistory] appends to the table body, top row first. *)
Definition renderHistory (flt : string) (history : list Entry) : list Row :=
  let items := if bool_decide (flt = "ALL") then history
               else filter (fun h => coin h = flt) history in
  let display := take 30 (reverse items) in
  map (fun h =>
         let m1 := resultOf (pred1m h) (actual1m h) (price h) in
         let d1 := resultOf (pred1d h) (actual1d h) (price h) in
         {| shown := h; m1Result := m1; m1Cls := classOf m1;
            d1Result := d1; d1Cls := classOf d1 |})
      display.

End HistoryTable.

(** ** Vocabulary of the further statements *)

Module SeriesSpec.
Import Indicators.

(** [lo <= x <= hi]. *)
Definition within (lo hi x : Q) : Prop := lo <= x /\ x <= hi.

(** The sum of a list of numbers, and the slice [data[a], ..., data[a+n-1]]. *)
Definition sumQ (l : list Q) : Q := foldr Qplus 0 l.
Definition window (data : list Q) (a n : nat) : list Q := take n (drop a data).

(** A series that never falls, and one that falls at every step. *)
Definition rising (data : list Q) : Prop :=
  forall i, (1 <= i < length data)%nat -> get data (i - 1) <= get data i.
Definition falling (data : list Q) : Prop :=
  forall i, (1 <= i < length data)%nat -> get data i < get data (i - 1).

(** What [calcRSI]'s smoothing loop keeps true of its state
    [(ag, al, series)]. *)
Definition rsi_ok (st : Q * Q * list Q) : Prop :=
  0 <= st.1.1 /\ 0 <= st.1.2 /\ Forall (within 0 100) st.2.

(** Every candle's close between its low and its high. *)
Definition candles_ok (highs lows closes : list Q) : Prop :=
  forall i, (i < length closes)%nat ->
    get lows i <= get closes i /\ get closes i <= get highs i.

(** Candles without any range, all at one price [c]. *)
Definition flat_at (c : Q) (highs lows closes : list Q) : Prop :=
  Forall (Qeq c) closes /\ Forall (Qeq c) highs /\ Forall (Qeq c) lows /\
  length highs = length closes /\ length lows = length closes.

End SeriesSpec.

Module StatsSpec.
Import Ledger LedgerSpec HistoryTable.

(** The entries a filter selects, as [getHistoryStats] and [renderHistory]
    select them, and those of them with a horizon resolved. *)
Definition inScope (flt : string) (h : list Entry) : list Entry :=
  if bool_decide (flt = "ALL") then h else filter (fun k => coin k = flt) h.

Definition resolvedIn (hz : Horizon) (l : list Entry) : list Entry :=
  filter (fun k => ~ pending hz k) l.

(** The class of a row's result for a horizon. *)
Definition rowCls (hz : Horizon) (r : Row) : string :=
  match hz with Short => m1Cls r | Long => d1Cls r end.

Definition forecast (hz : Horizon) (e : Entry) : Q :=
  match hz with Short => pred1m e | Long => pred1d e end.

(** The hit rate a table shows: its hit rows among its resolved rows. *)
Definition tableRate (hz : Horizon) (rows : list Row) : option Q :=
  let hits := length (filter (fun r => rowCls hz r = "result-hit") rows) in
  let resolved :=
    length (filter (fun r => rowCls hz r <> "result-pending") rows) in
  if (0 <? resolved)%nat then Some (nat2Q hits / nat2Q resolved * 100)
  else None.

Definition accuracy (hz : Horizon) (s : Stats) : option Q :=
  match hz with Short => accuracy1m s | Long => accuracy1d s end.

End StatsSpec.


Module AltsSpec.
Import Alts.

(** What a sort mode ranks by, larger first. *)
Definition rank (altSortMode : string) (t : AltTicker) : Q :=
  if bool_decide (altSortMode = "gainers") then priceChangePercent t
  else if bool_decide (altSortMode = "losers") then - priceChangePercent t
  else quoteVolume t.

End AltsSpec.

Module ChartSpec.
Import SeriesSpec.

(** A point inside a canvas of width [W] and height [H], two pixels clear of
    its top and bottom. *)
Definition inCanvas (W H : Q) (pt : Q * Q) : Prop :=
  within 0 W pt.1 /\ within 2 (H - 2) pt.2.

End ChartSpec.

(** ** The prediction history: proofs *)

Section LedgerFacts.
Import Ledger LedgerSpec.

Local Open Scope Z_scope.

Implicit Types (now : Z) (cd : gmap string CoinData) (e : Entry)
         (h : list Entry) (hz : Horizon).

Local Ltac resolve_cases :=
  unfold resolveEntry, resolve1d, resolve1m;
  repeat (case_bool_decide; simpl in * );
  repeat (case_match; simpl in * ); simplify_eq; try done.

Lemma resolveEntry_recorded now cd e :
  recorded (resolveEntry now cd e) = recorded e.
Proof. unfold recorded. resolve_cases. Qed.

(** What one pass does to one horizon of one entry. *)
Lemma resolveEntry_horizon now cd e hz :
  let e' := resolveEntry now cd e in
  match actual hz e with
  | Some a => actual hz e' = Some a /\ resolvedAt hz e' = resolvedAt hz e
  | None =>
      if bool_decide (duration hz <= now - ts e) then
        match tickerPrice cd (coin e) with
        | Some p => actual hz e' = Some p /\ resolvedAt hz e' = Some now
        | None => actual hz e' = None /\ resolvedAt hz e' = resolvedAt hz e
        end
      else actual hz e' = None /\ resolvedAt hz e' = resolvedAt hz e
  end.
Proof.
  destruct hz; simpl; resolve_cases.
Qed.

Lemma resolve1m_idem now cd e :
  resolve1m now cd (resolve1m now cd e) = resolve1m now cd e.
Proof.
  unfold resolve1m at 2 3.
  destruct (bool_decide (actual1m e = None) && _) eqn:Hg;
    [|by unfold resolve1m; rewrite Hg].
  destruct (tickerPrice cd (coin e)) eqn:Hp;
    [done|by unfold resolve1m; rewrite Hg, Hp].
Qed.

Lemma resolve1d_idem now cd e :
  resolve1d now cd (resolve1d now cd e) = resolve1d now cd e.
Proof.
  unfold resolve1d at 2 3.
  destruct (bool_decide (actual1d e = None) && _) eqn:Hg;
    [|by unfold resolve1d; rewrite Hg].
  destruct (tickerPrice cd (coin e)) eqn:Hp;
    [done|by unfold resolve1d; rewrite Hg, Hp].
Qed.

(** The two horizons are resolved independently of each other. *)
Lemma resolve1m_1d_comm now cd e :
  resolve1m now cd (resolve1d now cd e) = resolve1d now cd (resolve1m now cd e).
Proof.
  unfold resolve1d at 1. unfold resolve1m at 2.
  destruct (bool_decide (actual1d e = None) && _) eqn:Hd;
    destruct (bool_decide (actual1m e = None) && _) eqn:Hm;
    destruct (tickerPrice cd (coin e)) eqn:Hp;
    unfold resolve1m, resolve1d; simpl; rewrite ?Hd, ?Hm, ?Hp; done.
Qed.

Lemma resolveEntry_idem now cd e :
  resolveEntry now cd (resolveEntry now cd e) = resolveEntry now cd e.
Proof.
  unfold resolveEntry.
  rewrite (resolve1m_1d_comm now cd (resolve1m now cd e)).
  by rewrite resolve1m_idem, resolve1d_idem.
Qed.

Lemma resolveHistory_lookup now cd h i :
  resolveHistory now cd h !! i = resolveEntry now cd <$> h !! i.
Proof. unfold resolveHistory. apply list_lookup_fmap. Qed.

Lemma resolveEntry_ts now cd e : ts (resolveEntry now cd e) = ts e.
Proof. pose proof (resolveEntry_recorded now cd e) as H. by inversion H. Qed.

Lemma resolveEntry_coin now cd e : coin (resolveEntry now cd e) = coin e.
Proof. pose proof (resolveEntry_recorded now cd e) as H. by inversion H. Qed.

Lemma resolveEntry_resolves now cd e hz p :
  pending hz e -> duration hz <= now - ts e ->
  tickerPrice cd (coin e) = Some p ->
  actual hz (resolveEntry now cd e) = Some p /\
  resolvedAt hz (resolveEntry now cd e) = Some now.
Proof.
  intros Hpend Hel Hp.
  pose proof (resolveEntry_horizon now cd e hz) as Hstep. simpl in Hstep.
  rewrite Hpend, bool_decide_true, Hp in Hstep; done.
Qed.

Lemma resolveEntry_waits now cd e hz :
  pending hz e ->
  ~ (duration hz <= now - ts e /\ is_Some (tickerPrice cd (coin e))) ->
  pending hz (resolveEntry now cd e) /\
  resolvedAt hz (resolveEntry now cd e) = resolvedAt hz e.
Proof.
  intros Hpend Hno.
  pose proof (resolveEntry_horizon now cd e hz) as Hstep. simpl in Hstep.
  rewrite Hpend in Hstep. unfold pending.
  case_bool_decide; [|done].
  destruct (tickerPrice cd (coin e)); [|done].
  destruct Hno; eauto.
Qed.

Lemma resolveEntry_keeps now cd e hz :
  ~ pending hz e ->
  actual hz (resolveEntry now cd e) = actual hz e /\
  resolvedAt hz (resolveEntry now cd e) = resolvedAt hz e.
Proof.
  intros Hres.
  pose proof (resolveEntry_horizon now cd e hz) as Hstep. simpl in Hstep.
  unfold pending in Hres. destruct (actual hz e); [|done].
  by destruct Hstep as [-> ->].
Qed.

(** C7: per entry and per horizon, a resolve pass takes a pending horizon to
    resolved exactly when the horizon's duration (60 s, 24 h) has elapsed
    since the entry was created and the asset has a current price; without a
    price the horizon stays pending and a later pass that finds one resolves
    it; a resolved horizon stays resolved. *)
Theorem resolveHistory_transitions now cd h i e hz :
  h !! i = Some e ->
  exists e', resolveHistory now cd h !! i = Some e' /\
    (pending hz e ->
       (~ pending hz e' <->
          duration hz <= now - ts e /\ is_Some (tickerPrice cd (coin e))) /\
       (~ pending hz e' ->
          actual hz e' = tickerPrice cd (coin e) /\
          resolvedAt hz e' = Some now)) /\
    (pending hz e -> tickerPrice cd (coin e) = None ->
       pending hz e' /\
       forall now2 cd2 p,
         duration hz <= now2 - ts e -> tickerPrice cd2 (coin e) = Some p ->
         actual hz <$> resolveHistory now2 cd2 (resolveHistory now cd h) !! i
         = Some (Some p)) /\
    (~ pending hz e ->
       actual hz e' = actual hz e /\ resolvedAt hz e' = resolvedAt hz e).
Proof.
  intros Hi. exists (resolveEntry now cd e).
  split; [by rewrite resolveHistory_lookup, Hi|].
  assert (Hdec : pending hz e ->
            (duration hz <= now - ts e /\ is_Some (tickerPrice cd (coin e)))
            \/ pending hz (resolveEntry now cd e)).
  { intros Hpend.
    destruct (decide (duration hz <= now - ts e)) as [Hel|Hel];
      destruct (tickerPrice cd (coin e)) as [p|] eqn:Hp; eauto;
      right; apply resolveEntry_waits; try done;
      rewrite ?Hp; intros [? [? ?]]; done. }
  split; [|split].
  - intros Hpend. split; [split|].
    + intros Hnot. destruct (Hdec Hpend) as [?|?]; done.
    + intros [Hel [p Hp]] Hstill.
      destruct (resolveEntry_resolves now cd e hz p) as [Ha _]; try done.
      unfold pending in Hstill. congruence.
    + intros Hnot. destruct (Hdec Hpend) as [[Hel [p Hp]]|?]; [|done].
      destruct (resolveEntry_resolves now cd e hz p) as [Ha Ht]; try done.
      by rewrite Ha, Ht, Hp.
  - intros Hpend Hp.
    destruct (resolveEntry_waits now cd e hz) as [Hw _]; try done.
    { rewrite Hp. intros [_ [? ?]]; done. }
    split; [done|]. intros now2 cd2 p Hel2 Hp2.
    rewrite !resolveHistory_lookup, Hi. simpl. do 2 f_equal.
    apply resolveEntry_resolves; try done.
    + by rewrite resolveEntry_ts.
    + by rewrite resolveEntry_coin.
  - apply resolveEntry_keeps.
Qed.

(** C8: a second resolve pass at the same time with the same prices changes
    nothing, and no pass, whatever its time and prices, overwrites the actual
    price or the resolution time of a horizon that is already resolved. *)
Theorem resolveHistory_idempotent now cd h :
  resolveHistory now cd (resolveHistory now cd h) = resolveHistory now cd h /\
  forall now' cd' i e hz,
    h !! i = Some e -> ~ pending hz e ->
    exists e', resolveHistory now' cd' h !! i = Some e' /\
      actual hz e' = actual hz e /\ resolvedAt hz e' = resolvedAt hz e.
Proof.
  split.
  - unfold resolveHistory. rewrite <- list_fmap_compose.
    apply list_fmap_ext. intros _ e _. apply resolveEntry_idem.
  - intros now' cd' i e hz Hi Hres. exists (resolveEntry now' cd' e).
    split; [by rewrite resolveHistory_lookup, Hi|].
    by apply resolveEntry_keeps.
Qed.

(** C10: a resolve pass keeps the number of entries and, position by
    position, each entry's creation time, asset, price at creation and both
    forecasts; only actual prices and resolution times can differ. *)
Theorem resolveHistory_frame now cd h :
  length (resolveHistory now cd h) = length h /\
  recorded <$> resolveHistory now cd h = recorded <$> h /\
  forall i e e',
    h !! i = Some e -> resolveHistory now cd h !! i = Some e' ->
    ts e' = ts e /\ coin e' = coin e /\ price e' = price e /\
    pred1m e' = pred1m e /\ pred1d e' = pred1d e.
Proof.
  split; [apply length_fmap|]. split.
  - unfold resolveHistory. rewrite <- list_fmap_compose.
    apply list_fmap_ext. intros _ e _. apply resolveEntry_recorded.
  - intros i e e' Hi Hi'. rewrite resolveHistory_lookup, Hi in Hi'.
    simplify_eq/=. pose proof (resolveEntry_recorded now cd e) as H.
    by inversion H.
Qed.

Lemma classic_throttled now (c : string) h :
  throttled now c h \/ ~ throttled now c h.
Proof.
  unfold throttled. destruct (mostRecent c h) as [e|].
  - destruct (decide (now - ts e < 55000)); [eauto|].
    right. intros [? [? ?]]. simplify_eq. done.
  - right. intros [? [? ?]]. done.
Qed.

(** [recordPrediction]'s reversed search finds the asset's last entry. *)
Lemma lastFor_mostRecent (c : string) h : lastFor c h = mostRecent c h.
Proof.
  unfold lastFor, mostRecent.
  induction h as [|x h IH] using rev_ind; [done|].
  rewrite reverse_snoc, filter_app, filter_cons, filter_nil. simpl.
  case_decide as Hx.
  - by rewrite last_snoc.
  - rewrite app_nil_r, <- IH.
    by destruct (list_find _ (reverse h)) as [[??]|].
Qed.

Lemma slice_last_length {A} (n : nat) (l : list A) :
  length (slice_last n l) = (length l `min` n)%nat.
Proof. unfold slice_last. rewrite length_drop. lia. Qed.

Lemma recordPrediction_throttled now now' (c : string) (p m d : Q) h :
  throttled now c h -> recordPrediction now now' c p m d h = h.
Proof.
  intros [e [He Hyoung]]. unfold recordPrediction.
  rewrite lastFor_mostRecent, He. by rewrite bool_decide_true.
Qed.

Lemma recordPrediction_pushes now now' (c : string) (p m d : Q) h :
  ~ throttled now c h ->
  recordPrediction now now' c p m d h
  = drop (length h + 1 - MAX_HISTORY) (h ++ [newEntry now' c p m d]).
Proof.
  intros Hfree. unfold recordPrediction, throttled in *.
  rewrite lastFor_mostRecent.
  assert (Hcap : (if (MAX_HISTORY <? length (h ++ [newEntry now' c p m d]))%nat
                  then slice_last MAX_HISTORY (h ++ [newEntry now' c p m d])
                  else h ++ [newEntry now' c p m d])
                 = drop (length h + 1 - MAX_HISTORY)
                        (h ++ [newEntry now' c p m d])).
  { unfold slice_last. rewrite length_app. simpl.
    destruct (Nat.ltb_spec MAX_HISTORY (length h + 1)) as [Hlt|Hge]; [done|].
    by replace (length h + 1 - MAX_HISTORY)%nat with 0%nat by lia. }
  destruct (mostRecent c h) as [e|]; [|done].
  case_bool_decide; [|done]. destruct Hfree; eauto.
Qed.

Lemma recordPrediction_pushed_length now now' (c : string) (p m d : Q) h :
  ~ throttled now c h ->
  length (recordPrediction now now' c p m d h)
  = (S (length h) `min` MAX_HISTORY)%nat.
Proof.
  intros Hfree. rewrite recordPrediction_pushes by done.
  rewrite length_drop, length_app. unfold MAX_HISTORY. simpl. lia.
Qed.

Lemma recordPrediction_capacity now now' (c : string) (p m d : Q) h :
  (length h <= MAX_HISTORY)%nat ->
  (length (recordPrediction now now' c p m d h) <= MAX_HISTORY)%nat.
Proof.
  intros Hle. destruct (classic_throttled now c h) as [Hthr|Hfree].
  - by rewrite recordPrediction_throttled.
  - rewrite recordPrediction_pushed_length by done. lia.
Qed.

(** C6: unless the asset's most recent entry is younger than 55 seconds, in
    which case the ledger is returned unchanged, [recordPrediction] appends
    one entry with both horizons pending and then keeps the last 100
    entries, dropping from the front; a ledger of at most 100 entries stays
    one. *)
Theorem recordPrediction_ledger now now' (c : string) (p m d : Q) h :
  let e := newEntry now' c p m d in
  let h' := recordPrediction now now' c p m d h in
  (throttled now c h -> h' = h) /\
  (~ throttled now c h ->
     h' = drop (length h + 1 - MAX_HISTORY) (h ++ [e]) /\
     last h' = Some e /\
     (forall hz, pending hz e /\ resolvedAt hz e = None) /\
     length h' = (S (length h) `min` MAX_HISTORY)%nat /\
     (length h' <= MAX_HISTORY)%nat) /\
  ((length h <= MAX_HISTORY)%nat -> (length h' <= MAX_HISTORY)%nat).
Proof.
  intros e h'. subst h'.
  split; [apply recordPrediction_throttled|].
  split; [|apply recordPrediction_capacity].
  intros Hfree. split; [by apply recordPrediction_pushes|].
  split; [|split; [by intros []|]].
  - rewrite recordPrediction_pushes by done.
    rewrite drop_app_le by (unfold MAX_HISTORY; lia).
    apply last_snoc.
  - rewrite recordPrediction_pushed_length by done. split; [done|lia].
Qed.

(** A ledger loaded from a store that [saveHistory] wrote, or from an empty
    or unreadable store, never grows beyond 100 entries. *)
Lemma run_capacity (ops : list Op) (stored : option (list Entry)) h0 :
  stored = None \/ stored = Some (saveHistory h0) ->
  (length (run ops (loadHistory stored)) <= MAX_HISTORY)%nat.
Proof.
  intros Hst.
  assert (Hinit : (length (loadHistory stored) <= MAX_HISTORY)%nat).
  { destruct Hst as [-> | ->]; simpl; [lia|].
    unfold saveHistory. rewrite slice_last_length. lia. }
  clear Hst. unfold run. revert Hinit. generalize (loadHistory stored).
  induction ops as [|o ops IH]; intros h Hh; simpl; [done|].
  apply IH. destruct o as [now now' c p m d|now cd|]; simpl.
  - by apply recordPrediction_capacity.
  - unfold resolveHistory. by rewrite length_fmap.
  - lia.
Qed.

(** *** Statistics *)

Lemma score_hit_le (pr : Entry -> Q) (ac : Entry -> option Q) l hit err :
  ((fold_left (score pr ac) l (hit, err)).1 <= hit + length l)%nat.
Proof.
  revert hit err. induction l as [|x l IH]; intros hit err; simpl; [lia|].
  case_bool_decide.
  - etrans; [apply IH|]. lia.
  - etrans; [apply IH|]. lia.
Qed.

Lemma nat2Q_le (a b : nat) : (a <= b)%nat -> (nat2Q a <= nat2Q b)%Q.
Proof. intros H. unfold nat2Q. rewrite <- Zle_Qle. lia. Qed.

Lemma nat2Q_pos (n : nat) : (0 < n)%nat -> (0 < nat2Q n)%Q.
Proof.
  intros H. unfold nat2Q. change 0%Q with (inject_Z 0).
  rewrite <- Zlt_Qlt. lia.
Qed.

(** A hit count over a non-empty sample, as a percentage. *)
Lemma rate_range (hit n : nat) :
  (hit <= n)%nat -> (0 < n)%nat ->
  (0 <= nat2Q hit / nat2Q n * 100 /\ nat2Q hit / nat2Q n * 100 <= 100)%Q.
Proof.
  intros Hle Hn.
  pose proof (nat2Q_pos n Hn) as Hpos.
  pose proof (nat2Q_le 0 hit ltac:(lia)) as H0.
  pose proof (nat2Q_le hit n Hle) as H1.
  change (nat2Q 0) with 0%Q in H0.
  assert (Hq0 : (0 <= nat2Q hit / nat2Q n)%Q).
  { apply Qle_shift_div_l; [done|]. by rewrite Qmult_0_l. }
  assert (Hq1 : (nat2Q hit / nat2Q n <= 1)%Q).
  { apply Qle_shift_div_r; [done|]. by rewrite Qmult_1_l. }
  split; nra.
Qed.

(** The counts of the report are counts of ledger entries. *)
Lemma getHistoryStats_counts (flt : string) h :
  total (getHistoryStats flt h) = length (StatsSpec.inScope flt h) /\
  resolved1m (getHistoryStats flt h)
  = length (StatsSpec.resolvedIn Short (StatsSpec.inScope flt h)) /\
  resolved1d (getHistoryStats flt h)
  = length (StatsSpec.resolvedIn Long (StatsSpec.inScope flt h)).
Proof.
  unfold getHistoryStats, StatsSpec.inScope, StatsSpec.resolvedIn, pending.
  simpl.
  destruct (fold_left (score pred1m actual1m) _ _).
  destruct (fold_left (score pred1d actual1d) _ _). done.
Qed.

(** C9: for every ledger and every asset filter, the report counts the
    entries of the ledger the filter selects and, per horizon, those of them
    whose actual price is set; a horizon's hit rate and mean error are [null]
    exactly when that resolved count is zero, and a hit rate that is not
    [null] lies between 0 and 100. *)
Theorem getHistoryStats_metrics (flt : string) h :
  let s := getHistoryStats flt h in
  total s = length (StatsSpec.inScope flt h) /\
  resolved1m s
  = length (StatsSpec.resolvedIn Short (StatsSpec.inScope flt h)) /\
  resolved1d s
  = length (StatsSpec.resolvedIn Long (StatsSpec.inScope flt h)) /\
  (accuracy1m s = None <-> resolved1m s = 0%nat) /\
  (avgErr1m s = None <-> resolved1m s = 0%nat) /\
  (accuracy1d s = None <-> resolved1d s = 0%nat) /\
  (avgErr1d s = None <-> resolved1d s = 0%nat) /\
  ((0 < resolved1m s)%nat ->
     exists a, accuracy1m s = Some a /\ (0 <= a /\ a <= 100)%Q) /\
  ((0 < resolved1d s)%nat ->
     exists a, accuracy1d s = Some a /\ (0 <= a /\ a <= 100)%Q).
Proof.
  destruct (getHistoryStats_counts flt h) as (Ht & Hr1 & Hr2).
  cbv zeta. split; [exact Ht|]. split; [exact Hr1|]. split; [exact Hr2|].
  clear Ht Hr1 Hr2.
  unfold getHistoryStats.
  set (items := if bool_decide (flt = "ALL") then h
                else filter (fun k => coin k = flt) h).
  set (r1 := filter (fun k => actual1m k <> None) items).
  set (r2 := filter (fun k => actual1d k <> None) items).
  pose proof (score_hit_le pred1m actual1m r1 0 0) as Hh1.
  pose proof (score_hit_le pred1d actual1d r2 0 0) as Hh2.
  destruct (fold_left (score pred1m actual1m) r1 (0%nat, 0%Q)) as [hit1 err1].
  destruct (fold_left (score pred1d actual1d) r2 (0%nat, 0%Q)) as [hit2 err2].
  simpl in *.
  destruct (Nat.ltb_spec 0 (length r1)) as [Hn1|Hn1];
    destruct (Nat.ltb_spec 0 (length r2)) as [Hn2|Hn2];
    repeat split; try done; try lia; intros;
      try (eexists; split; [done|]; by apply rate_range).
Qed.

End LedgerFacts.

(** ** The indicators: proofs *)

Section IndicatorFacts.
Import Indicators IndicatorSpec.

Variable sqrt : Q -> Q.

Lemma lastOf_last (l : list Q) : l <> [] -> last l = Some (lastOf l).
Proof.
  intros Hl. unfold lastOf. apply last_is_Some in Hl. by destruct Hl as [x ->].
Qed.

Lemma last_replicate {A} (n : nat) (x : A) :
  (0 < n)%nat -> last (replicate n x) = Some x.
Proof.
  intros Hn. rewrite last_lookup, length_replicate.
  apply lookup_replicate_2. lia.
Qed.

(** *** Bollinger bands on a short series *)

Lemma sma_warmup (data : list Q) (period start n : nat) :
  (start + n <= period - 1)%nat ->
  map (fun i =>
         if (i <? period - 1)%nat then None
         else
           Some (fold_left (fun s j => s + get data j)
                           (upto (i + 1 - period) i) 0
                 / inject_Z (Z.of_nat period)))
      (seq start n)
  = replicate n None.
Proof.
  revert start. induction n as [|n IH]; intros start Hle; simpl; [done|].
  destruct (Nat.ltb_spec start (period - 1)); [|lia].
  f_equal. apply IH. lia.
Qed.

Lemma sma_short (data : list Q) (period : nat) :
  (length data < period)%nat -> sma data period = replicate (length data) None.
Proof. intros Hlen. unfold sma. apply sma_warmup. lia. Qed.

Lemma imap_replicate {A B} (f : nat -> A -> B) (n : nat) (x : A) (y : B) :
  (forall i, f i x = y) -> imap f (replicate n x) = replicate n y.
Proof.
  revert f. induction n as [|n IH]; intros f Hf; simpl; [done|].
  rewrite Hf. f_equal. apply IH. intros i. apply Hf.
Qed.

(** C3, as the code has it: for a non-empty close series with fewer than
    [period] points every entry of the three band series is [null], the last
    upper and lower bands are the last price raised and lowered by 2%, and
    the last middle band is the last price. *)
Theorem calcBollinger_short_series (data : list Q) (period : nat) (mult : Q) :
  data <> [] -> (length data < period)%nat ->
  let b := calcBollinger sqrt data period mult in
  last data = Some (lastOf data) /\
  lastUpper b = lastOf data * 1.02 /\
  lastLower b = lastOf data * 0.98 /\
  lastMid b = lastOf data /\
  bb_upper b = replicate (length data) None /\
  bb_lower b = replicate (length data) None /\
  bb_mid b = replicate (length data) None.
Proof.
  intros Hne Hlen b.
  assert (Hn : (0 < length data)%nat) by (destruct data; [done|simpl; lia]).
  assert (Hbm : bb_mid b = replicate (length data) None).
  { subst b. unfold calcBollinger. simpl. by apply sma_short. }
  assert (Hbu : bb_upper b = replicate (length data) None).
  { subst b. unfold calcBollinger. simpl.
    rewrite sma_short by done.
    rewrite (imap_replicate _ _ _ (None, None)) by done.
    by rewrite fmap_replicate. }
  assert (Hbl : bb_lower b = replicate (length data) None).
  { subst b. unfold calcBollinger. simpl.
    rewrite sma_short by done.
    rewrite (imap_replicate _ _ _ (None, None)) by done.
    by rewrite fmap_replicate. }
  assert (Hu : lastUpper b
               = orElse (mjoin (last (bb_upper b))) (lastOf data * 1.02))
    by reflexivity.
  assert (Hl : lastLower b
               = orElse (mjoin (last (bb_lower b))) (lastOf data * 0.98))
    by reflexivity.
  assert (Hm : lastMid b = orElse (mjoin (last (bb_mid b))) (lastOf data))
    by reflexivity.
  rewrite Hu, Hl, Hm, Hbu, Hbl, Hbm, last_replicate by done.
  split; [by apply lastOf_last|]. by split_and!.
Qed.

(** C3 fails at the one-point series [100]: the last bands are 102 and 98,
    not 100.2 and 99.5. *)
Lemma bollinger_fallback_counterexample :
  (length [100] < 20)%nat /\
  forall sq,
    let b := calcBollinger sq [100] 20 2 in
    lastUpper b == 102 /\ lastLower b == 98 /\
    ~ lastUpper b == 100 * 1.002 /\ ~ lastLower b == 100 * 0.995.
Proof.
  split; [simpl; lia|]. intros sq. cbv zeta.
  split_and!; by vm_compute.
Qed.

(** *** RSI *)

(** With at least one smoothing step the RSI is read off the smoothed
    averages, and saturates at 100 when the average loss is 0. *)
Lemma calcRSI_saturates (data : list Q) (period : nat) :
  (period + 2 <= length data)%nat ->
  finalAvgLoss data period == 0 ->
  rsi_value (calcRSI data period) = 100.
Proof.
  intros Hlen Hal. unfold calcRSI, finalAvgLoss in *.
  destruct (Nat.ltb_spec (length data) (period + 1)); [lia|].
  unfold rsi_run in *. destruct (rsi_seed data period) as [gS lS].
  destruct (length data - (period + 1))%nat as [|m] eqn:Hm; [lia|].
  rewrite seq_S, fold_left_app in *.
  set (st := fold_left _ (seq (period + 1) m) _) in *. clearbody st.
  destruct st as [[ag al] series].
  cbn [fold_left rsi_step fst snd rsi_value] in *.
  unfold lastOf. rewrite last_snoc. cbn [default].
  unfold Qeqb. apply Qeq_bool_iff in Hal. by rewrite Hal.
Qed.

(** With exactly [period + 1] points no smoothing step runs and the RSI is
    the padding value 50, whatever the seeded averages are. *)
Lemma calcRSI_no_step (data : list Q) (period : nat) :
  length data = (period + 1)%nat -> rsi_value (calcRSI data period) = 50.
Proof.
  intros Hlen. unfold calcRSI, rsi_run.
  destruct (Nat.ltb_spec (length data) (period + 1)); [lia|].
  destruct (rsi_seed data period) as [gS lS].
  replace (length data - (period + 1))%nat with 0%nat by lia. simpl.
  unfold lastOf. rewrite last_replicate by lia. done.
Qed.

(** C4 at the 15-point rising series 1, 2, ..., 15: the average loss is 0 and
    [calcRSI] returns 50, not 100; with a sixteenth point it returns 100. *)
Theorem calcRSI_fifteen_points :
  let data := [1; 2; 3; 4; 5; 6; 7; 8; 9; 10; 11; 12; 13; 14; 15] in
  length data = 15%nat /\
  finalAvgLoss data 14 == 0 /\
  rsi_value (calcRSI data 14) = 50 /\
  rsi_value (calcRSI (data ++ [16]) 14) = 100.
Proof.
  cbv zeta. split; [done|]. split; [by vm_compute|].
  split; [by apply calcRSI_no_step|].
  apply calcRSI_saturates; [simpl; lia|by vm_compute].
Qed.

End IndicatorFacts.

(** ** The prediction engine: proofs *)

Section EngineFacts.
Import Indicators Engine EngineSpec.

Variable sqrt : Q -> Q.

Implicit Types (price : Q) (hCloses dCloses hHighs hLows : list Q).

Lemma Qltb_lt (x y : Q) : Qltb x y = true <-> x < y.
Proof.
  unfold Qltb. rewrite negb_true_iff, <- not_true_iff_false, Qle_bool_iff.
  split; [apply Qnot_le_lt | apply Qlt_not_le].
Qed.

Lemma Qleb_le (x y : Q) : Qleb x y = true <-> x <= y.
Proof. apply Qle_bool_iff. Qed.

Lemma threeWay_sign (x : Q) : threeWay x = signDirection x.
Proof.
  unfold threeWay, signDirection.
  destruct (Qcompare_spec x 0) as [Heq|Hlt|Hgt].
  - destruct (Qltb 0 x) eqn:Hpos; [apply Qltb_lt in Hpos; lra|].
    destruct (Qltb x 0) eqn:Hneg; [apply Qltb_lt in Hneg; lra|done].
  - destruct (Qltb 0 x) eqn:Hpos; [apply Qltb_lt in Hpos; lra|].
    apply Qltb_lt in Hlt. by rewrite Hlt.
  - apply Qltb_lt in Hgt. by rewrite Hgt.
Qed.

Lemma votes_count (d : Direction) (s : Signals) :
  votes d s = count d (Object_values s).
Proof.
  unfold votes, count, Object_values, allKinds.
  rewrite !filter_cons, !filter_nil. simpl.
  repeat case_decide; done.
Qed.

Lemma count_total (l : list Signal) :
  (count bullish l + count bearish l + count neutral l = length l)%nat.
Proof.
  unfold count. induction l as [|x l IH]; [done|].
  rewrite !filter_cons. destruct (direction x); simpl; lia.
Qed.

(** C5: the consensus sentiment is the majority vote of the seven
    per-indicator directions: bullish when more indicators are bullish than
    bearish, bearish when more are bearish than bullish, neutral on a tie;
    the seven votes are split over the three directions. *)
Theorem overall_majority price hCloses dCloses hHighs hLows :
  let p := computePrediction sqrt price hCloses dCloses hHighs hLows in
  let bull := votes bullish (signals p) in
  let bear := votes bearish (signals p) in
  overall p = majority (signals p) /\
  ((bear < bull)%nat -> overall p = bullish) /\
  ((bull < bear)%nat -> overall p = bearish) /\
  (bull = bear -> overall p = neutral) /\
  (bull + bear + votes neutral (signals p) = 7)%nat.
Proof.
  intros p bull bear.
  assert (Hov : overall p
                = if (bear <? bull)%nat then bullish
                  else if (bull <? bear)%nat then bearish else neutral).
  { subst bull bear. rewrite !votes_count. reflexivity. }
  assert (Hmaj : overall p = majority (signals p)).
  { rewrite Hov. unfold majority. fold bull bear.
    destruct (Nat.compare_spec bull bear) as [Heq|Hlt|Hgt].
    - rewrite Heq. by rewrite Nat.ltb_irrefl.
    - destruct (Nat.ltb_spec bear bull); [lia|].
      destruct (Nat.ltb_spec bull bear); [done|lia].
    - destruct (Nat.ltb_spec bear bull); [done|lia]. }
  split; [done|]. rewrite Hov.
  split; [|split; [|split]].
  - intros H. destruct (Nat.ltb_spec bear bull); [done|lia].
  - intros H. destruct (Nat.ltb_spec bear bull); [lia|].
    destruct (Nat.ltb_spec bull bear); [done|lia].
  - intros H. destruct (Nat.ltb_spec bear bull); [lia|].
    destruct (Nat.ltb_spec bull bear); [lia|done].
  - subst bull bear. rewrite !votes_count. apply count_total.
Qed.

(** *** The forecast caps *)

Lemma ema_from_nonneg (k prev : Q) (rest : list Q) :
  0 <= k -> k <= 1 -> 0 <= prev -> Forall (Qle 0) rest ->
  Forall (Qle 0) (ema_from k prev rest).
Proof.
  intros Hk0 Hk1. revert prev.
  induction rest as [|x rest IH]; intros prev Hprev Hrest; simpl; [done|].
  inversion Hrest as [|? ? Hx Hrest']; subst.
  assert (0 <= x * k + prev * (1 - k)) by nra.
  constructor; [done|]. by apply IH.
Qed.

Lemma lastOf_nonneg (l : list Q) : Forall (Qle 0) l -> 0 <= lastOf l.
Proof.
  intros Hl. unfold lastOf. destruct (last l) as [x|] eqn:Hx; simpl; [|lra].
  apply last_Some_elem_of in Hx. by eapply Forall_forall in Hl.
Qed.

Lemma trueRange_nonneg highs lows closes (i : nat) :
  0 <= trueRange highs lows closes i.
Proof.
  unfold trueRange. eapply Qle_trans; [apply Qabs_nonneg|]. apply Q.le_max_r.
Qed.

(** The average true range of candles whose first high is not below its low
    is not negative. *)
Lemma calcATR_nonneg highs lows closes :
  get lows 0 <= get highs 0 -> 0 <= atr_value (calcATR highs lows closes 14).
Proof.
  intros H0. unfold calcATR, ema. simpl. apply lastOf_nonneg.
  constructor.
  - unfold get at 1. simpl. lra.
  - apply ema_from_nonneg.
    + by vm_compute.
    + by vm_compute.
    + unfold get at 1. simpl. lra.
    + apply Forall_fmap, Forall_forall. intros i _. simpl.
      apply trueRange_nonneg.
Qed.

Lemma cap_range (a c : Q) : 0 <= a -> 0 <= c -> 0 <= Qmin a c /\ Qmin a c <= c.
Proof.
  intros Ha Hc. split; [by apply Q.min_glb | apply Q.le_min_r].
Qed.

Lemma capped_product (raw cap c : Q) :
  0 <= cap -> cap <= c ->
  - (c * Qabs raw) <= raw * cap /\ raw * cap <= c * Qabs raw.
Proof.
  intros Hc0 Hc1. destruct (Qlt_le_dec raw 0) as [Hr|Hr].
  - rewrite Qabs_neg by lra. split; nra.
  - rewrite Qabs_pos by done. split; nra.
Qed.

Lemma scaled_interval (price raw cap c : Q) :
  0 < price -> 0 <= cap -> cap <= c ->
  (price * (1 - c * Qabs raw) <= price * (1 + raw * cap) /\
   price * (1 + raw * cap) <= price * (1 + c * Qabs raw)) /\
  (Qabs raw <= 1 ->
     price * (1 - c) <= price * (1 + raw * cap) /\
     price * (1 + raw * cap) <= price * (1 + c)) /\
  (0 <= raw -> price <= price * (1 + raw * cap)) /\
  (raw <= 0 -> price * (1 + raw * cap) <= price).
Proof.
  intros Hp Hc0 Hc1.
  destruct (capped_product raw cap c Hc0 Hc1) as [Hlo Hhi].
  pose proof (Qabs_nonneg raw) as Ha.
  set (y := raw * cap) in *. set (a := Qabs raw) in *.
  split_and!.
  - clearbody y a. nra.
  - clearbody y a. nra.
  - intros H1. assert (c * a <= c) by nra. clearbody y a. split; nra.
  - intros H0. assert (0 <= y) by (unfold y; nra). clearbody y. nra.
  - intros H0. assert (y <= 0) by (unfold y; nra). clearbody y. nra.
Qed.

(** C1, as the code has it: for a valid input with positive daily closes
    whose first hourly candle has its high at or above its low, the
    volatility multiplier, not the deviation, is capped.  The short forecast
    lies between the price scaled down and scaled up by 3% of the composite
    score's magnitude, the long forecast likewise with 15%; a forecast is on
    the side of the price its score points to; and the forecasts are within
    3% and 15% of the price, as products with the price, whenever the
    scores' magnitudes are at most 1. *)
Theorem forecast_deviation price hCloses dCloses hHighs hLows :
  valid_input price hCloses dCloses hHighs hLows ->
  Forall (Qlt 0) dCloses ->
  get hLows 0 <= get hHighs 0 ->
  let p := computePrediction sqrt price hCloses dCloses hHighs hLows in
  let rs := rawShort price p in
  let rl := rawLong price p in
  (price * (1 - 0.03 * Qabs rs) <= oneMinute p /\
   oneMinute p <= price * (1 + 0.03 * Qabs rs)) /\
  (price * (1 - 0.15 * Qabs rl) <= oneDay p /\
   oneDay p <= price * (1 + 0.15 * Qabs rl)) /\
  (Qabs rs <= 1 ->
     price * (1 - 0.03) <= oneMinute p /\ oneMinute p <= price * (1 + 0.03)) /\
  (Qabs rl <= 1 ->
     price * (1 - 0.15) <= oneDay p /\ oneDay p <= price * (1 + 0.15)) /\
  (0 <= rs -> price <= oneMinute p) /\ (rs <= 0 -> oneMinute p <= price) /\
  (0 <= rl -> price <= oneDay p) /\ (rl <= 0 -> oneDay p <= price).
Proof.
  intros (Hprice & _) _ Hcandle p rs rl.
  assert (Hatr : 0 <= atrPct p).
  { change (atrPct p)
      with (atr_value (calcATR hHighs hLows hCloses 14) / price).
    apply Qle_shift_div_l; [done|]. rewrite Qmult_0_l.
    by apply calcATR_nonneg. }
  assert (H1 : oneMinute p = price * (1 + rs * Qmin (atrPct p * 8) 0.03))
    by reflexivity.
  assert (H2 : oneDay p = price * (1 + rl * Qmin (atrPct p * 80) 0.15))
    by reflexivity.
  rewrite H1, H2. clear H1 H2.
  remember (atrPct p) as a eqn:Ha. clearbody rs rl. clear Ha p.
  destruct (cap_range (a * 8) 0.03) as [Hs0 Hs1]; [lra|lra|].
  destruct (cap_range (a * 80) 0.15) as [Hl0 Hl1]; [lra|lra|].
  destruct (scaled_interval price rs _ 0.03 Hprice Hs0 Hs1)
    as (Bs & Cs & Us & Ds).
  destruct (scaled_interval price rl _ 0.15 Hprice Hl0 Hl1)
    as (Bl & Cl & Ul & Dl).
  split; [exact Bs|]. split; [exact Bl|]. split; [exact Cs|].
  split; [exact Cl|]. split; [exact Us|]. split; [exact Ds|].
  split; [exact Ul|exact Dl].
Qed.

(** C1 fails when the price is far above its daily average: the
    mean-reversion signal alone takes the composite scores to -2 and -8, and
    the forecasts fall 6% and 120% below the price. *)
Lemma forecast_caps_counterexample :
  valid_input 4100 [4100] [100] [4141] [4059] /\
  forall sq,
    let p := computePrediction sq 4100 [4100] [100] [4141] [4059] in
    oneMinute p == 3854 /\ oneDay p == -820 /\
    ~ Qabs (oneMinute p / 4100 - 1) <= 0.03 /\
    ~ Qabs (oneDay p / 4100 - 1) <= 0.15 /\
    ~ within_caps 4100 p.
Proof.
  split.
  - unfold valid_input. repeat split; done.
  - intros sq. cbv zeta. unfold within_caps.
    split_and!; try (by vm_compute).
    intros [H _]. revert H. by vm_compute.
Qed.

(** Why the candle hypothesis of [forecast_deviation] is there: with a first
    candle whose high is below its low the multiplier itself is negative
    and unbounded. *)
Lemma forecast_caps_inverted_candle :
  forall sq,
    let p := computePrediction sq 100 [100] [50] [0] [100] in
    Qabs (rawShort 100 p) <= 1 /\ ~ Qabs (oneMinute p / 100 - 1) <= 0.03.
Proof. intros sq. cbv zeta. split; by vm_compute. Qed.

(** C2, as the code has it: the RSI, Bollinger and stochastic directions are
    the sign of their signal, neutral at exactly 0; the EMA, MACD-histogram
    and mean-reversion directions are bullish for a strictly positive and
    bearish for a strictly negative signal; the ATR direction is always
    neutral. *)
Theorem directions_follow_signals price hCloses dCloses hHighs hLows :
  let p := computePrediction sqrt price hCloses dCloses hHighs hLows in
  let s := signals p in
  let emaS := emaSignalOf price hCloses in
  let hist := macd_histogram (macd p) in
  let mrS := meanRevSignalOf price dCloses in
  direction (RSI s) = signDirection (rsiSignalOf (rsi p)) /\
  direction (BB s) = signDirection (bbSignalOf (pctB (bb p))) /\
  direction (Stoch s) = signDirection (stochSignalOf (stoch p)) /\
  direction (ATR s) = neutral /\
  (0 < emaS -> direction (EMA s) = bullish) /\
  (emaS < 0 -> direction (EMA s) = bearish) /\
  (0 < hist -> direction (MACD s) = bullish) /\
  (hist < 0 -> direction (MACD s) = bearish) /\
  (0 < mrS -> direction (MeanRev s) = bullish) /\
  (mrS < 0 -> direction (MeanRev s) = bearish).
Proof.
  intros p s emaS hist mrS.
  assert (Hema : direction (EMA s)
                 = if Qleb 0 emaS then bullish else bearish) by reflexivity.
  assert (Hmacd : direction (MACD s)
                  = if Qleb 0 hist then bullish else bearish) by reflexivity.
  assert (Hmr : direction (MeanRev s)
                = if Qltb 0 mrS then bullish else bearish) by reflexivity.
  assert (Hrsi : direction (RSI s) = threeWay (rsiSignalOf (rsi p)))
    by reflexivity.
  assert (Hbb : direction (BB s) = threeWay (bbSignalOf (pctB (bb p))))
    by reflexivity.
  assert (Hst : direction (Stoch s) = threeWay (stochSignalOf (stoch p)))
    by reflexivity.
  assert (Hatr : direction (ATR s) = neutral) by reflexivity.
  rewrite Hema, Hmacd, Hmr, Hrsi, Hbb, Hst, Hatr, !threeWay_sign.
  clearbody emaS hist mrS s p.
  split_and!; [done|done|done|done|..].
  - intros H. destruct (Qleb 0 emaS) eqn:E; [done|].
    apply not_true_iff_false in E. rewrite Qleb_le in E. lra.
  - intros H. destruct (Qleb 0 emaS) eqn:E; [|done].
    apply Qleb_le in E. lra.
  - intros H. destruct (Qleb 0 hist) eqn:E; [done|].
    apply not_true_iff_false in E. rewrite Qleb_le in E. lra.
  - intros H. destruct (Qleb 0 hist) eqn:E; [|done].
    apply Qleb_le in E. lra.
  - intros H. apply Qltb_lt in H. by rewrite H.
  - intros H. destruct (Qltb 0 mrS) eqn:E; [|done].
    apply Qltb_lt in E. lra.
Qed.

(** C2 fails at a flat one-candle history: the EMA signal and the MACD
    histogram are exactly 0 and their directions are bullish, the
    mean-reversion signal is exactly 0 and its direction is bearish, and the
    ATR is positive and its direction is neutral. *)
Lemma direction_at_zero_counterexample :
  valid_input 100 [100] [100] [101] [99] /\
  forall sq,
    let p := computePrediction sq 100 [100] [100] [101] [99] in
    let s := signals p in
    (signDirection (value (EMA s)) = neutral /\ direction (EMA s) = bullish) /\
    (signDirection (value (MACD s)) = neutral /\
     direction (MACD s) = bullish) /\
    (signDirection (value (MeanRev s)) = neutral /\
     direction (MeanRev s) = bearish) /\
    (signDirection (value (ATR s)) = bullish /\ direction (ATR s) = neutral).
Proof.
  split.
  - unfold valid_input. repeat split; done.
  - intros sq. vm_compute. repeat split.
Qed.

End EngineFacts.

(** ** The indicators: further laws *)

Section SeriesLaws.
Import Indicators IndicatorSpec SeriesSpec.

Lemma ema_from_length (k prev : Q) (rest : list Q) :
  length (ema_from k prev rest) = length rest.
Proof.
  revert prev. induction rest as [|x rest IH]; intros prev; simpl; [done|].
  by rewrite IH.
Qed.

Lemma ema_length (data : list Q) (period : Q) :
  data <> [] -> length (ema data period) = length data.
Proof.
  intros Hne. destruct data as [|x data]; [done|].
  unfold ema. simpl. by rewrite ema_from_length.
Qed.

Lemma ema_from_nonpos (k prev : Q) (rest : list Q) :
  0 <= k -> k <= 1 -> prev <= 0 -> Forall (fun x => x <= 0) rest ->
  Forall (fun x => x <= 0) (ema_from k prev rest).
Proof.
  intros Hk0 Hk1. revert prev.
  induction rest as [|x rest IH]; intros prev Hprev Hrest; simpl; [done|].
  inversion Hrest as [|? ? Hx Hrest']; subst.
  assert (x * k + prev * (1 - k) <= 0) by nra.
  constructor; [done|]. by apply IH.
Qed.

Lemma smoothing_factor (period : Q) :
  1 <= period -> 0 <= 2 / (period + 1) /\ 2 / (period + 1) <= 1.
Proof.
  intros Hp. split.
  - apply Qle_shift_div_l; lra.
  - apply Qle_shift_div_r; lra.
Qed.

(** X1: the EMA of a non-empty series has one value per input value and
    starts at the first input value; for a period of at least 1 it keeps the
    sign of the data: no value is negative when no input value is, and none
    is positive when no input value is. *)
Theorem ema_shape_sign (data : list Q) (period : Q) :
  data <> [] -> 1 <= period ->
  length (ema data period) = length data /\
  head (ema data period) = head data /\
  (Forall (Qle 0) data -> Forall (Qle 0) (ema data period)) /\
  (Forall (fun x => x <= 0) data ->
   Forall (fun x => x <= 0) (ema data period)).
Proof.
  intros Hne Hp. split; [by apply ema_length|].
  destruct data as [|x data]; [done|]. unfold ema. simpl.
  destruct (smoothing_factor period Hp) as [Hk0 Hk1].
  split; [done|]. split.
  - intros Hdata. inversion Hdata as [|? ? Hx Hrest]; subst.
    constructor; [done|]. by apply ema_from_nonneg.
  - intros Hdata. inversion Hdata as [|? ? Hx Hrest]; subst.
    constructor; [done|]. by apply ema_from_nonpos.
Qed.

Lemma get_lookup (l : list Q) (i : nat) (x : Q) :
  l !! i = Some x -> get l i = x.
Proof. intros H. unfold get. by rewrite H. Qed.

Lemma index_sum_window (data : list Q) (a n : nat) (acc : Q) :
  (a + n <= length data)%nat ->
  fold_left (fun s j => s + get data j) (seq a n) acc
  == acc + sumQ (window data a n).
Proof.
  revert a acc. induction n as [|n IH]; intros a acc Hle; simpl.
  - unfold window, sumQ. simpl. lra.
  - rewrite IH by lia. unfold window.
    destruct (lookup_lt_is_Some_2 data a ltac:(lia)) as [x Hx].
    rewrite (drop_S _ _ _ Hx). simpl. rewrite (get_lookup _ _ _ Hx).
    change (S a) with (1 + a)%nat. lra.
Qed.

Lemma sumQ_within (lo hi : Q) (l : list Q) :
  Forall (within lo hi) l ->
  inject_Z (Z.of_nat (length l)) * lo <= sumQ l /\
  sumQ l <= inject_Z (Z.of_nat (length l)) * hi.
Proof.
  induction 1 as [|x l [Hx1 Hx2] _ [IH1 IH2]].
  - change (inject_Z (Z.of_nat (length (@nil Q)))) with 0.
    unfold sumQ. simpl. split; lra.
  - rewrite length_cons, Nat2Z.inj_succ, <- Z.add_1_r, inject_Z_plus.
    change (inject_Z 1) with 1. unfold sumQ in *. simpl. split; lra.
Qed.

Lemma sma_lookup (data : list Q) (period i : nat) :
  (i < length data)%nat ->
  sma data period !! i
  = Some (if (i <? period - 1)%nat then None
          else Some (fold_left (fun s j => s + get data j)
                               (upto (i + 1 - period) i) 0
                     / inject_Z (Z.of_nat period))).
Proof.
  intros Hi. unfold sma. rewrite list_lookup_fmap, lookup_seq_lt by done.
  done.
Qed.

Lemma sma_entry (data : list Q) (period i : nat) :
  (1 <= period)%nat -> (i < length data)%nat -> (period - 1 <= i)%nat ->
  exists m, sma data period !! i = Some (Some m) /\
    m == sumQ (window data (i + 1 - period) period)
         / inject_Z (Z.of_nat period) /\
    forall lo hi, Forall (within lo hi) data -> within lo hi m.
Proof.
  intros Hp Hi Hge. rewrite sma_lookup by done.
  destruct (Nat.ltb_spec i (period - 1)); [lia|].
  eexists. split; [done|].
  assert (Hpos : 0 < inject_Z (Z.of_nat period)).
  { change 0 with (inject_Z 0). rewrite <- Zlt_Qlt. lia. }
  assert (Hsum : fold_left (fun s j => s + get data j)
                   (upto (i + 1 - period) i) 0
                 == sumQ (window data (i + 1 - period) period)).
  { unfold upto. replace (i + 1 - (i + 1 - period))%nat with period by lia.
    rewrite index_sum_window by lia. lra. }
  split; [by rewrite Hsum|].
  intros lo hi Hdata.
  cut (within lo hi (sumQ (window data (i + 1 - period) period)
                     / inject_Z (Z.of_nat period))).
  { unfold within. by rewrite Hsum. }
  assert (Hw : Forall (within lo hi) (window data (i + 1 - period) period)).
  { unfold window. by apply Forall_take, Forall_drop. }
  assert (Hlen : length (window data (i + 1 - period) period) = period).
  { unfold window. rewrite length_take, length_drop. lia. }
  destruct (sumQ_within lo hi _ Hw) as [H1 H2]. rewrite Hlen in H1, H2.
  split.
  - apply Qle_shift_div_l; [done|]. lra.
  - apply Qle_shift_div_r; [done|]. lra.
Qed.

Lemma sma_length (data : list Q) (period : nat) :
  length (sma data period) = length data.
Proof. unfold sma. by rewrite length_fmap, length_seq. Qed.

(** X2: for a period of at least 1, the SMA has one entry per input value;
    the first [period - 1] entries are [null] and every later entry is a
    number, which is not negative when no input value is and not positive
    when no input value is. *)
Theorem sma_shape (data : list Q) (period : nat) :
  (1 <= period)%nat ->
  length (sma data period) = length data /\
  forall i, (i < length data)%nat ->
    ((i < period - 1)%nat -> sma data period !! i = Some None) /\
    ((period - 1 <= i)%nat ->
       exists m, sma data period !! i = Some (Some m) /\
         (Forall (Qle 0) data -> 0 <= m) /\
         (Forall (fun x => x <= 0) data -> m <= 0)).
Proof.
  intros Hp. split; [apply sma_length|].
  intros i Hi. split.
  - intros Hlt. rewrite sma_lookup by done.
    by destruct (Nat.ltb_spec i (period - 1)); [|lia].
  - intros Hge.
    destruct (sma_entry data period i Hp Hi Hge) as (m & Hm & Hmean & _).
    exists m. split; [done|].
    assert (Hpos : 0 < inject_Z (Z.of_nat period)).
    { change 0 with (inject_Z 0). rewrite <- Zlt_Qlt. lia. }
    assert (Hsum : forall l : list Q, Forall (Qle 0) l -> 0 <= sumQ l).
    { induction 1; unfold sumQ in *; simpl; lra. }
    assert (Hsum' : forall l : list Q,
               Forall (fun x => x <= 0) l -> sumQ l <= 0).
    { induction 1; unfold sumQ in *; simpl; lra. }
    rewrite Hmean. split; intros Hdata.
    + apply Qle_shift_div_l; [done|]. rewrite Qmult_0_l.
      apply Hsum. unfold window. by apply Forall_take, Forall_drop.
    + apply Qle_shift_div_r; [done|]. rewrite Qmult_0_l.
      apply Hsum'. unfold window. by apply Forall_take, Forall_drop.
Qed.

(** The last moving average, or [dflt] while there is none. *)
Lemma sma_last_within (data : list Q) (period : nat) (lo hi dflt : Q) :
  (1 <= period)%nat -> Forall (within lo hi) data -> within lo hi dflt ->
  within lo hi (nullish (mjoin (last (sma data period))) dflt).
Proof.
  intros Hp Hdata Hd. rewrite last_lookup, sma_length.
  destruct data as [|x data'] eqn:E; [done|]. rewrite <- E in *.
  assert (Hi : (pred (length data) < length data)%nat) by (subst; simpl; lia).
  destruct (decide (period - 1 <= pred (length data))%nat) as [Hge|Hlt].
  - destruct (sma_entry data period _ Hp Hi Hge) as (m & -> & _ & Hm).
    simpl. by apply Hm.
  - rewrite sma_lookup by done.
    by destruct (Nat.ltb_spec (pred (length data)) (period - 1)); [|lia].
Qed.

(** Invariants of a left fold. *)
Lemma fold_left_inv {A B} (P : A -> Prop) (f : A -> B -> A) (l : list B)
      (a : A) :
  P a -> (forall a b, P a -> P (f a b)) -> P (fold_left f l a).
Proof.
  intros Ha Hf. revert a Ha. induction l as [|b l IH]; intros a Ha; simpl; auto.
Qed.

Lemma fold_left_inv_in {A B} (P : A -> Prop) (f : A -> B -> A) (l : list B)
      (a : A) :
  P a -> (forall a b, b ∈ l -> P a -> P (f a b)) -> P (fold_left f l a).
Proof.
  revert a. induction l as [|b l IH]; intros a Ha Hf; simpl; [done|].
  apply IH.
  - apply Hf; [left|done].
  - intros a' b' Hb'. apply Hf. by right.
Qed.

Lemma nat_period_pos (period : nat) :
  (1 <= period)%nat -> 1 <= inject_Z (Z.of_nat period).
Proof. intros H. change 1 with (inject_Z 1). rewrite <- Zle_Qle. lia. Qed.

Lemma rsi_seed_nonneg (data : list Q) (period : nat) :
  0 <= (rsi_seed data period).1 /\ 0 <= (rsi_seed data period).2.
Proof.
  unfold rsi_seed.
  apply (fold_left_inv (fun st : Q * Q => 0 <= st.1 /\ 0 <= st.2)).
  - simpl. split; lra.
  - intros [gS lS] i [Hg Hl]. simpl in *.
    destruct (Qleb (0#1) (get data i - get data (i - 1))) eqn:Hd; simpl.
    + apply Qle_bool_iff in Hd. split; lra.
    + apply not_true_iff_false in Hd. unfold Qleb in Hd.
      rewrite Qle_bool_iff in Hd. split; lra.
Qed.

Lemma rsi_entry_range (ag al : Q) :
  0 <= ag -> 0 <= al ->
  within 0 100 (if Qeqb al 0 then 100 else 100 - 100 / (1 + ag / al)).
Proof.
  intros Hg Hl. unfold Qeqb.
  destruct (Qeq_bool al 0) eqn:Hz; [split; lra|].
  apply Qeq_bool_neq in Hz.
  assert (Hpos : 0 < al).
  { apply Qle_lteq in Hl as [?|E]; [done|]. destruct Hz. by symmetry. }
  assert (Hr : 0 <= ag / al) by (apply Qle_shift_div_l; lra).
  assert (H1 : 0 <= 100 / (1 + ag / al)) by (apply Qle_shift_div_l; lra).
  assert (H2 : 100 / (1 + ag / al) <= 100) by (apply Qle_shift_div_r; nra).
  split; lra.
Qed.

Lemma rsi_step_ok (data : list Q) (p : Q) (st : Q * Q * list Q) (i : nat) :
  1 <= p -> rsi_ok st -> rsi_ok (rsi_step data p st i).
Proof.
  intros Hp. destruct st as [[ag al] series]. unfold rsi_ok. simpl.
  intros (Hg & Hl & Hs).
  set (d := get data i - get data (i - 1)).
  assert (Hg' : 0 <= (ag * (p - 1) + Qmax d 0) / p).
  { apply Qle_shift_div_l; [lra|]. pose proof (Q.le_max_r d 0). nra. }
  assert (Hl' : 0 <= (al * (p - 1) + Qmax (- d) 0) / p).
  { apply Qle_shift_div_l; [lra|]. pose proof (Q.le_max_r (- d) 0). nra. }
  split_and!; try done.
  apply Forall_app. split; [done|]. constructor; [|done].
  by apply rsi_entry_range.
Qed.

Lemma rsi_run_ok (data : list Q) (period : nat) :
  (1 <= period)%nat -> rsi_ok (rsi_run data period).
Proof.
  intros Hp. pose proof (nat_period_pos period Hp) as Hq.
  unfold rsi_run. pose proof (rsi_seed_nonneg data period) as [Hg Hl].
  destruct (rsi_seed data period) as [gS lS]. simpl in Hg, Hl.
  apply (fold_left_inv rsi_ok).
  - unfold rsi_ok. simpl. split_and!.
    + apply Qle_shift_div_l; lra.
    + apply Qle_shift_div_l; lra.
    + apply Forall_replicate. split; lra.
  - intros st i. by apply rsi_step_ok.
Qed.

Lemma lastOf_Forall (P : Q -> Prop) (l : list Q) :
  l <> [] -> Forall P l -> P (lastOf l).
Proof.
  intros Hne Hl. unfold lastOf. apply last_is_Some in Hne as [x Hx].
  rewrite Hx. simpl. apply last_Some_elem_of in Hx.
  by eapply Forall_forall in Hl.
Qed.

Lemma rsi_run_length (data : list Q) (period : nat) :
  (period + 1 <= length data)%nat ->
  length (rsi_run data period).2 = length data.
Proof.
  intros Hlen. unfold rsi_run. destruct (rsi_seed data period) as [gS lS].
  set (p := inject_Z (Z.of_nat period)).
  assert (H : forall l st,
             length (fold_left (rsi_step data p) l st).2
             = (length st.2 + length l)%nat).
  { induction l as [|i l IH]; intros st; simpl; [lia|].
    rewrite IH. destruct st as [[ag al] series]. simpl.
    rewrite length_app. simpl. lia. }
  rewrite H. simpl. rewrite length_replicate, length_seq. lia.
Qed.

(** X3: for a period of at least 1, the RSI value and every entry of the RSI
    series lie between 0 and 100; the series has one entry per data point,
    or none when there are fewer than [period + 1] points, in which case
    the value is 50. *)
Theorem calcRSI_range (data : list Q) (period : nat) :
  (1 <= period)%nat ->
  within 0 100 (rsi_value (calcRSI data period)) /\
  Forall (within 0 100) (rsi_series (calcRSI data period)) /\
  length (rsi_series (calcRSI data period))
  = (if (length data <? period + 1)%nat then 0 else length data)%nat /\
  ((length data < period + 1)%nat -> rsi_value (calcRSI data period) = 50).
Proof.
  intros Hp. unfold calcRSI.
  destruct (Nat.ltb_spec (length data) (period + 1)) as [Hshort|Hlong]; simpl.
  - split; [split; lra|]. by split_and!.
  - pose proof (rsi_run_ok data period Hp) as (_ & _ & Hs).
    pose proof (rsi_run_length data period Hlong) as Hlen.
    destruct (rsi_run data period) as [[ag al] series]. simpl in *.
    split; [|split; [done|split; [done|lia]]].
    apply lastOf_Forall; [|done]. intros ->. simpl in Hlen. lia.
Qed.

Lemma calcRSI_final (data : list Q) (period : nat) :
  (period + 2 <= length data)%nat ->
  rsi_value (calcRSI data period)
  = if Qeqb (rsi_run data period).1.2 0 then 100
    else 100 - 100 / (1 + (rsi_run data period).1.1
                          / (rsi_run data period).1.2).
Proof.
  intros Hlen. unfold calcRSI.
  destruct (Nat.ltb_spec (length data) (period + 1)); [lia|].
  unfold rsi_run. destruct (rsi_seed data period) as [gS lS].
  destruct (length data - (period + 1))%nat as [|m] eqn:Hm; [lia|].
  rewrite seq_S, fold_left_app.
  set (st := fold_left _ (seq (period + 1) m) _). clearbody st.
  destruct st as [[ag al] series].
  cbn [fold_left rsi_step fst snd rsi_value].
  unfold lastOf. by rewrite last_snoc.
Qed.

Lemma upto_elem (lo hi i : nat) : i ∈ upto lo hi -> (lo <= i <= hi)%nat.
Proof. unfold upto. rewrite elem_of_seq. lia. Qed.

Lemma Qleb_false (x y : Q) : Qleb x y = false <-> y < x.
Proof.
  unfold Qleb. rewrite <- not_true_iff_false, Qle_bool_iff.
  split; [apply Qnot_le_lt | apply Qlt_not_le].
Qed.

Lemma rsi_run_rising (data : list Q) (period : nat) :
  (period + 1 <= length data)%nat -> rising data ->
  (rsi_run data period).1.2 == 0.
Proof.
  intros Hlen Hup. unfold rsi_run.
  assert (Hseed : (rsi_seed data period).2 = 0).
  { unfold rsi_seed.
    apply (fold_left_inv_in (fun st : Q * Q => st.2 = 0)); [done|].
    intros [gS lS] i Hi Hl. apply upto_elem in Hi. simpl in *.
    destruct (Qleb 0 (get data i - get data (i - 1))) eqn:Hd; [done|].
    apply Qleb_false in Hd. pose proof (Hup i ltac:(lia)). lra. }
  destruct (rsi_seed data period) as [gS lS]. simpl in Hseed. subst lS.
  apply (fold_left_inv_in (fun st : Q * Q * list Q => st.1.2 == 0)).
  - simpl. unfold Qdiv. ring.
  - intros [[ag al] series] i Hi Hal. apply elem_of_seq in Hi. simpl in *.
    pose proof (Hup i ltac:(lia)) as Hd.
    rewrite Hal, Q.max_r by lra. unfold Qdiv. ring.
Qed.

(** X4: a series of at least [period + 2] points that never falls (a
    constant one included) has RSI exactly 100. *)
Theorem calcRSI_rising (data : list Q) (period : nat) :
  (1 <= period)%nat -> (period + 2 <= length data)%nat -> rising data ->
  rsi_value (calcRSI data period) = 100.
Proof.
  intros _ Hlen Hup. rewrite calcRSI_final by done.
  pose proof (rsi_run_rising data period ltac:(lia) Hup) as Hal.
  unfold Qeqb. apply Qeq_bool_iff in Hal. by rewrite Hal.
Qed.

Lemma rsi_run_falling (data : list Q) (period : nat) :
  (1 <= period)%nat -> (period + 1 <= length data)%nat -> falling data ->
  (rsi_run data period).1.1 == 0 /\ 0 < (rsi_run data period).1.2.
Proof.
  intros Hp Hlen Hdown. pose proof (nat_period_pos period Hp) as Hq.
  unfold rsi_run.
  assert (Hseed : (rsi_seed data period).1 = 0 /\ 0 < (rsi_seed data period).2).
  { unfold rsi_seed, upto. replace (period + 1 - 1)%nat with period by lia.
    destruct period as [|n]; [lia|]. rewrite seq_S, fold_left_app. simpl.
    assert (Hpre : (fold_left
                      (fun '(gS, lS) i =>
                         let d := get data i - get data (i - 1) in
                         if Qleb 0 d then (gS + d, lS) else (gS, lS - d))
                      (seq 1 n) (0, 0)).1 = 0
                   /\ 0 <= (fold_left
                      (fun '(gS, lS) i =>
                         let d := get data i - get data (i - 1) in
                         if Qleb 0 d then (gS + d, lS) else (gS, lS - d))
                      (seq 1 n) (0, 0)).2).
    { apply (fold_left_inv_in (fun st : Q * Q => st.1 = 0 /\ 0 <= st.2)).
      - simpl. split; [done|lra].
      - intros [gS lS] i Hi [Hg Hl]. apply elem_of_seq in Hi. simpl in *.
        pose proof (Hdown i ltac:(lia)) as Hd.
        destruct (Qleb 0 (get data i - get data (i - 1))) eqn:E.
        + apply Qle_bool_iff in E. lra.
        + simpl. split; [done|lra]. }
    destruct (fold_left _ (seq 1 n) _) as [gS lS]. simpl in Hpre.
    destruct Hpre as [-> Hl].
    pose proof (Hdown (1 + n)%nat ltac:(lia)) as Hd. simpl in Hd |- *.
    match goal with
    | |- context [Qleb ?a ?b] => destruct (Qleb a b) eqn:E
    end.
    + apply Qle_bool_iff in E. lra.
    + simpl. split; [done|lra]. }
  destruct (rsi_seed data period) as [gS lS]. simpl in Hseed.
  destruct Hseed as [-> Hl].
  apply (fold_left_inv_in
           (fun st : Q * Q * list Q => st.1.1 == 0 /\ 0 < st.1.2)).
  - cbn [fst snd]. split; [unfold Qdiv; ring|].
    apply Qlt_shift_div_l; lra.
  - intros [[ag al] series] i Hi [Hag Hal]. apply elem_of_seq in Hi.
    cbn [fst snd rsi_step] in *. pose proof (Hdown i ltac:(lia)) as Hd.
    split.
    + rewrite Hag, Q.max_r by lra. unfold Qdiv. ring.
    + apply Qlt_shift_div_l; [lra|].
      pose proof (Q.le_max_l (- (get data i - get data (i - 1))) 0). nra.
Qed.

(** X5: a series of at least [period + 2] points that falls at every step
    has RSI 0. *)
Theorem calcRSI_falling (data : list Q) (period : nat) :
  (1 <= period)%nat -> (period + 2 <= length data)%nat -> falling data ->
  rsi_value (calcRSI data period) == 0.
Proof.
  intros Hp Hlen Hdown. rewrite calcRSI_final by done.
  destruct (rsi_run_falling data period Hp ltac:(lia) Hdown) as [Hag Hal].
  unfold Qeqb. destruct (Qeq_bool _ 0) eqn:E.
  - apply Qeq_bool_iff in E. lra.
  - rewrite Hag. field. lra.
Qed.

Lemma lastOf_get (l : list Q) : lastOf l = get l (length l - 1).
Proof.
  unfold lastOf, get. rewrite last_lookup.
  by replace (pred (length l)) with (length l - 1)%nat by lia.
Qed.

Lemma get_imap (f : nat -> Q -> Q) (l : list Q) (i : nat) :
  (i < length l)%nat -> get (imap f l) i = f i (get l i).
Proof.
  intros Hi. unfold get. rewrite list_lookup_imap.
  destruct (lookup_lt_is_Some_2 l i Hi) as [x ->]. done.
Qed.

(** The last value of a pointwise difference of two series of one length. *)
Lemma lastOf_difference (a b : list Q) :
  a <> [] -> length b = length a ->
  lastOf (imap (fun i v => v - get b i) a) = lastOf a - lastOf b.
Proof.
  intros Hne Hlen. rewrite !lastOf_get, length_imap, Hlen.
  rewrite get_imap; [done|]. destruct a; [done|]. simpl. lia.
Qed.

(** X6: for a non-empty series the MACD histogram is the MACD line minus the
    signal line, the line is the last EMA(12) minus the last EMA(26), and
    the histogram series has one entry per data point. *)
Theorem calcMACD_histogram (data : list Q) :
  data <> [] ->
  macd_histogram (calcMACD data)
  = macd_line (calcMACD data) - macd_signal (calcMACD data) /\
  macd_line (calcMACD data) = lastOf (ema data 12) - lastOf (ema data 26) /\
  length (macd_histSeries (calcMACD data)) = length data.
Proof.
  intros Hne. unfold calcMACD. cbv zeta.
  cbn [macd_histogram macd_line macd_signal macd_histSeries].
  assert (Hl12 : length (ema data 12) = length data) by by apply ema_length.
  assert (Hl26 : length (ema data 26) = length data) by by apply ema_length.
  assert (H12 : ema data 12 <> []).
  { intros E. rewrite E in Hl12. by destruct data. }
  set (line := imap (fun i v => v - get (ema data 26) i) (ema data 12)).
  assert (Hline : line <> []).
  { intros E. apply (f_equal length) in E. unfold line in E.
    rewrite length_imap, Hl12 in E. by destruct data. }
  assert (Hsig : length (ema line 9) = length line) by by apply ema_length.
  split_and!.
  - by apply lastOf_difference.
  - apply lastOf_difference; [done|congruence].
  - rewrite length_imap. unfold line. by rewrite length_imap.
Qed.

Lemma fold_maxInto (f : nat -> Q) (l : list nat) (m0 : Q) :
  exists m, fold_left (fun hh j => maxInto hh (f j)) l (Some m0) = Some m /\
    m0 <= m /\ forall j, j ∈ l -> f j <= m.
Proof.
  revert m0. induction l as [|i l IH]; intros m0; simpl.
  - exists m0. split_and!; [done|lra|]. intros j Hj. by apply elem_of_nil in Hj.
  - destruct (IH (Qmax m0 (f i))) as (m & Hm & Hle & Hall).
    exists m. split; [done|].
    pose proof (Q.le_max_l m0 (f i)). pose proof (Q.le_max_r m0 (f i)).
    split; [lra|]. intros j Hj. apply elem_of_cons in Hj as [->|Hj]; [lra|].
    by apply Hall.
Qed.

Lemma fold_minInto (f : nat -> Q) (l : list nat) (m0 : Q) :
  exists m, fold_left (fun ll j => minInto ll (f j)) l (Some m0) = Some m /\
    m <= m0 /\ forall j, j ∈ l -> m <= f j.
Proof.
  revert m0. induction l as [|i l IH]; intros m0; simpl.
  - exists m0. split_and!; [done|lra|]. intros j Hj. by apply elem_of_nil in Hj.
  - destruct (IH (Qmin m0 (f i))) as (m & Hm & Hle & Hall).
    exists m. split; [done|].
    pose proof (Q.le_min_l m0 (f i)). pose proof (Q.le_min_r m0 (f i)).
    split; [lra|]. intros j Hj. apply elem_of_cons in Hj as [->|Hj]; [lra|].
    by apply Hall.
Qed.

Lemma stoch_kAt_within (highs lows closes : list Q) (kP i : nat) :
  (1 <= kP)%nat -> (i < length closes)%nat -> candles_ok highs lows closes ->
  within 0 100 (stoch_kAt highs lows closes kP i).
Proof.
  intros Hk Hi Hc. unfold stoch_kAt.
  destruct (Nat.ltb_spec i (kP - 1)); [split; lra|].
  unfold upto. replace (i + 1 - (i + 1 - kP))%nat with (S (kP - 1)) by lia.
  assert (Hin : i ∈ seq (i + 1 - kP) (S (kP - 1)))
    by (apply elem_of_seq; lia).
  remember (seq (i + 1 - kP) (S (kP - 1))) as w eqn:Hw.
  destruct w as [|j0 w]; [by apply elem_of_nil in Hin|].
  change (fold_left (fun hh j => maxInto hh (get highs j)) (j0 :: w) None)
    with (fold_left (fun hh j => maxInto hh (get highs j)) w
                    (Some (get highs j0))).
  change (fold_left (fun ll j => minInto ll (get lows j)) (j0 :: w) None)
    with (fold_left (fun ll j => minInto ll (get lows j)) w
                    (Some (get lows j0))).
  destruct (fold_maxInto (get highs) w (get highs j0)) as (hh & -> & Hh0 & Hh).
  destruct (fold_minInto (get lows) w (get lows j0)) as (ll & -> & Hl0 & Hl).
  destruct (Hc i Hi) as [Hlo Hhi].
  assert (Hhh : get highs i <= hh).
  { apply elem_of_cons in Hin as [->|Hin]; [done|by apply Hh]. }
  assert (Hll : ll <= get lows i).
  { apply elem_of_cons in Hin as [->|Hin]; [done|by apply Hl]. }
  unfold Qeqb. destruct (Qeq_bool hh ll) eqn:E; [split; lra|].
  apply Qeq_bool_neq in E.
  assert (Hpos : 0 < hh - ll).
  { assert (ll <= hh) by lra. apply Qle_lteq in H0 as [?|E']; [lra|].
    destruct E. by symmetry. }
  assert (H0 : 0 <= (get closes i - ll) / (hh - ll))
    by (apply Qle_shift_div_l; lra).
  assert (H1 : (get closes i - ll) / (hh - ll) <= 1)
    by (apply Qle_shift_div_r; lra).
  split; lra.
Qed.

Lemma stoch_kV_within (highs lows closes : list Q) (kP : nat) (lo hi : Q) :
  (forall i, (i < length closes)%nat ->
     within lo hi (stoch_kAt highs lows closes kP i)) ->
  Forall (within lo hi)
         (map (stoch_kAt highs lows closes kP) (seq 0 (length closes))).
Proof.
  intros H. apply Forall_fmap, Forall_forall. intros i Hi.
  apply elem_of_seq in Hi. apply H. lia.
Qed.

Lemma calcStochastic_within (highs lows closes : list Q) (kP dP : nat)
      (lo hi : Q) :
  closes <> [] -> (1 <= dP)%nat -> within lo hi 50 ->
  (forall i, (i < length closes)%nat ->
     within lo hi (stoch_kAt highs lows closes kP i)) ->
  within lo hi (stoch_k (calcStochastic highs lows closes kP dP)) /\
  within lo hi (stoch_d (calcStochastic highs lows closes kP dP)).
Proof.
  intros Hne Hd H50 Hk. unfold calcStochastic. cbv zeta.
  cbn [stoch_k stoch_d].
  pose proof (stoch_kV_within highs lows closes kP lo hi Hk) as HkV.
  split.
  - apply lastOf_Forall; [|done]. intros E. apply (f_equal length) in E.
    rewrite length_fmap, length_seq in E. by destruct closes.
  - apply sma_last_within; [done| |done].
    apply Forall_fmap. eapply Forall_impl; [exact HkV|]. by intros x Hx.
Qed.

(** X7: when every close lies between its candle's low and high, %K and %D
    lie between 0 and 100. *)
Theorem calcStochastic_range (highs lows closes : list Q) (kP dP : nat) :
  closes <> [] -> (1 <= kP)%nat -> (1 <= dP)%nat ->
  candles_ok highs lows closes ->
  within 0 100 (stoch_k (calcStochastic highs lows closes kP dP)) /\
  within 0 100 (stoch_d (calcStochastic highs lows closes kP dP)).
Proof.
  intros Hne Hk Hd Hc.
  apply calcStochastic_within; [done|done|split; lra|].
  intros i Hi. by apply stoch_kAt_within.
Qed.

(** X8: with fewer than [kP] candles both %K and %D are the neutral 50. *)
Theorem calcStochastic_warmup (highs lows closes : list Q) (kP dP : nat) :
  closes <> [] -> (length closes < kP)%nat -> (1 <= dP)%nat ->
  stoch_k (calcStochastic highs lows closes kP dP) == 50 /\
  stoch_d (calcStochastic highs lows closes kP dP) == 50.
Proof.
  intros Hne Hlen Hd.
  destruct (calcStochastic_within highs lows closes kP dP 50 50)
    as [[? ?] [? ?]]; [done|done|split; lra| |].
  - intros i Hi. unfold stoch_kAt.
    destruct (Nat.ltb_spec i (kP - 1)); [split; lra|lia].
  - split; by apply Qle_antisym.
Qed.

(** X9: for candles whose first high is not below its low, the ATR series
    has one entry per close and no entry, the last included, is negative. *)
Theorem calcATR_series (highs lows closes : list Q) :
  closes <> [] -> get lows 0 <= get highs 0 ->
  length (atr_series (calcATR highs lows closes 14)) = length closes /\
  Forall (Qle 0) (atr_series (calcATR highs lows closes 14)) /\
  0 <= atr_value (calcATR highs lows closes 14).
Proof.
  intros Hne H0. unfold calcATR. cbv zeta. cbn [atr_series atr_value].
  set (trs := (get highs 0 - get lows 0)
              :: map (trueRange highs lows closes) (seq 1 (length closes - 1))).
  assert (Htrs : Forall (Qle 0) trs).
  { constructor; [lra|]. apply Forall_fmap, Forall_forall. intros i _.
    apply trueRange_nonneg. }
  assert (Hema : Forall (Qle 0) (ema trs 14)).
  { unfold ema, trs. cbn [tail]. unfold get at 1 3.
    cbn [lookup list_lookup default].
    inversion Htrs as [|? ? Hx Hrest]; subst.
    constructor; [done|].
    apply ema_from_nonneg; [by vm_compute|by vm_compute|done|done]. }
  split_and!; [|done|by apply lastOf_nonneg].
  rewrite ema_length by done. unfold trs. simpl.
  rewrite length_fmap, length_seq. destruct closes; [done|simpl; lia].
Qed.

End SeriesLaws.

(** ** The prediction engine: further laws *)

Section EngineLaws.
Import Indicators IndicatorSpec SeriesSpec Engine EngineSpec.

Variable sqrt : Q -> Q.

Implicit Types (price : Q) (hCloses dCloses hHighs hLows : list Q).

Lemma Qltb_false (x y : Q) : Qltb x y = false <-> y <= x.
Proof.
  rewrite <- not_true_iff_false, Qltb_lt.
  split; [apply Qnot_lt_le|apply Qle_not_lt].
Qed.

Lemma signDirection_pos (x : Q) : 0 < x -> signDirection x = bullish.
Proof.
  intros H. rewrite <- threeWay_sign. unfold threeWay.
  apply Qltb_lt in H. by rewrite H.
Qed.

Lemma signDirection_neg (x : Q) : x < 0 -> signDirection x = bearish.
Proof.
  intros H. rewrite <- threeWay_sign. unfold threeWay.
  destruct (Qltb 0 x) eqn:E; [apply Qltb_lt in E; lra|].
  apply Qltb_lt in H. by rewrite H.
Qed.

Lemma signDirection_zero (x : Q) : x == 0 -> signDirection x = neutral.
Proof.
  intros H. rewrite <- threeWay_sign. unfold threeWay.
  destruct (Qltb 0 x) eqn:E; [apply Qltb_lt in E; lra|].
  destruct (Qltb x 0) eqn:E'; [apply Qltb_lt in E'; lra|done].
Qed.

Local Ltac by_ltb :=
  repeat match goal with
         | H : Qltb _ _ = true |- _ => apply Qltb_lt in H
         | H : Qltb _ _ = false |- _ => apply Qltb_false in H
         end.

Lemma rsi_direction (v : Q) :
  signDirection (rsiSignalOf v)
  = if Qltb 60 v then bearish else if Qltb v 40 then bullish else neutral.
Proof.
  unfold rsiSignalOf.
  destruct (Qltb 75 v) eqn:E1; [|destruct (Qltb 60 v) eqn:E2;
    [|destruct (Qltb v 25) eqn:E3; [|destruct (Qltb v 40) eqn:E4]]]; by_ltb.
  - assert (Qltb 60 v = true) as -> by (apply Qltb_lt; lra).
    apply signDirection_neg. apply Qlt_shift_div_r; lra.
  - apply signDirection_neg. apply Qlt_shift_div_r; lra.
  - assert (Qltb v 40 = true) as -> by (apply Qltb_lt; lra).
    apply signDirection_pos. apply Qlt_shift_div_l; lra.
  - apply signDirection_pos. apply Qlt_shift_div_l; lra.
  - by apply signDirection_zero.
Qed.

(** X10: the RSI indicator is bearish exactly when RSI is above 60, bullish
    exactly when it is below 40, and neutral from 40 to 60. *)
Theorem rsi_direction_thresholds price hCloses dCloses hHighs hLows :
  let p := computePrediction sqrt price hCloses dCloses hHighs hLows in
  let d := direction (RSI (signals p)) in
  (d = bearish <-> 60 < rsi p) /\
  (d = bullish <-> rsi p < 40) /\
  (d = neutral <-> 40 <= rsi p /\ rsi p <= 60).
Proof.
  intros p d.
  assert (Hd : d = signDirection (rsiSignalOf (rsi p))).
  { subst d. rewrite <- threeWay_sign. reflexivity. }
  rewrite Hd, rsi_direction. clear Hd d. generalize (rsi p). clear p.
  intros v. destruct (Qltb 60 v) eqn:E1; [|destruct (Qltb v 40) eqn:E2]; by_ltb;
    split_and!; split; try done; try lra; intros; lra.
Qed.



Lemma stoch_direction (st : Stochastic) :
  signDirection (stochSignalOf st)
  = if Qltb 80 (stoch_k st) && Qltb (stoch_d st) (stoch_k st) then bearish
    else if Qltb (stoch_k st) 20 && Qltb (stoch_k st) (stoch_d st)
         then bullish else neutral.
Proof.
  unfold stochSignalOf.
  destruct (Qltb 80 (stoch_k st) && Qltb (stoch_d st) (stoch_k st));
    [by apply signDirection_neg|].
  destruct (Qltb (stoch_k st) 20 && Qltb (stoch_k st) (stoch_d st));
    [by apply signDirection_pos|by apply signDirection_zero].
Qed.

(** X12: the stochastic indicator is bearish exactly when %K is above 80
    and above %D, bullish exactly when %K is below 20 and below %D; its
    strength is 50 when it has a direction and 0 when it is neutral. *)
Theorem stoch_direction_thresholds price hCloses dCloses hHighs hLows :
  let p := computePrediction sqrt price hCloses dCloses hHighs hLows in
  let d := direction (Stoch (signals p)) in
  let k := stoch_k (stoch p) in
  let dd := stoch_d (stoch p) in
  (d = bearish <-> 80 < k /\ dd < k) /\
  (d = bullish <-> k < 20 /\ k < dd) /\
  (strength (Stoch (signals p)) == if bool_decide (d = neutral) then 0 else 50).
Proof.
  intros p d k dd.
  assert (Hd : d = signDirection (stochSignalOf (stoch p))).
  { subst d. rewrite <- threeWay_sign. reflexivity. }
  assert (Hs : strength (Stoch (signals p))
               = Qabs (stochSignalOf (stoch p)) * 2500) by reflexivity.
  rewrite Hs, Hd, stoch_direction. unfold stochSignalOf. fold k dd.
  clearbody k dd. clear Hd Hs d p.
  destruct (Qltb 80 k) eqn:E1; destruct (Qltb dd k) eqn:E2;
    destruct (Qltb k 20) eqn:E3; destruct (Qltb k dd) eqn:E4; by_ltb; simpl;
    (split_and!; [split; try done; try lra; intros; lra ..| by vm_compute]).
Qed.

Lemma capped_strength (x c : Q) :
  0 <= c -> within 0 100 (Qmin (Qabs x * c) 100).
Proof.
  intros Hc. pose proof (Qabs_nonneg x). split.
  - apply Q.min_glb; [nra|lra].
  - apply Q.le_min_r.
Qed.

(** X13: for a valid input with positive daily closes and a first candle
    whose high is not below its low, the strength of each of the seven
    signals lies between 0 and 100. *)
Theorem strengths_within price hCloses dCloses hHighs hLows :
  valid_input price hCloses dCloses hHighs hLows ->
  Forall (Qlt 0) dCloses ->
  get hLows 0 <= get hHighs 0 ->
  let p := computePrediction sqrt price hCloses dCloses hHighs hLows in
  Forall (fun s => within 0 100 (strength s)) (Object_values (signals p)).
Proof.
  intros (Hprice & _) _ Hcandle p.
  assert (Hatr : 0 <= atrPct p).
  { change (atrPct p)
      with (atr_value (calcATR hHighs hLows hCloses 14) / price).
    apply Qle_shift_div_l; [done|]. rewrite Qmult_0_l.
    by apply calcATR_nonneg. }
  assert (Hs : strength (ATR (signals p)) = Qmin (atrPct p * 1000) 100)
    by reflexivity.
  assert (Hst : strength (Stoch (signals p))
                = Qabs (stochSignalOf (stoch p)) * 2500) by reflexivity.
  unfold Object_values. repeat constructor;
    try (apply capped_strength; lra); try apply Q.le_min_r.
  - rewrite Hst. pose proof (Qabs_nonneg (stochSignalOf (stoch p))). nra.
  - rewrite Hst. unfold stochSignalOf.
    destruct (_ && _); [by vm_compute|]. destruct (_ && _); by vm_compute.
  - rewrite Hs. apply Q.min_glb; [nra|lra].
Qed.

Lemma get_Forall (P : Q -> Prop) (l : list Q) (i : nat) :
  Forall P l -> (i < length l)%nat -> P (get l i).
Proof.
  intros Hl Hi. unfold get. destruct (lookup_lt_is_Some_2 l i Hi) as [x Hx].
  rewrite Hx. simpl. by eapply Forall_lookup_1 in Hl.
Qed.

Lemma ema_from_zero (k prev : Q) (rest : list Q) :
  prev == 0 -> Forall (Qeq 0) rest -> Forall (Qeq 0) (ema_from k prev rest).
Proof.
  revert prev.
  induction rest as [|x rest IH]; intros prev Hp Hr; simpl; [done|].
  inversion Hr as [|? ? Hx Hrest]; subst.
  assert (x * k + prev * (1 - k) == 0) by (rewrite <- Hx, Hp; ring).
  constructor; [by symmetry|]. by apply IH.
Qed.

Lemma ema_cons (x : Q) (l : list Q) (period : Q) :
  ema (x :: l) period = x :: ema_from (2 / (period + 1)) x l.
Proof. reflexivity. Qed.

Lemma calcATR_flat (c : Q) (highs lows closes : list Q) :
  closes <> [] -> flat_at c highs lows closes ->
  atr_value (calcATR highs lows closes 14) == 0.
Proof.
  intros Hne (Hc & Hh & Hl & Hlh & Hll).
  assert (Hn : (0 < length closes)%nat) by (destruct closes; [done|simpl; lia]).
  assert (Hget : forall i, (i < length closes)%nat ->
            get closes i == c /\ get highs i == c /\ get lows i == c).
  { intros i Hi. split_and!; symmetry.
    - by apply (get_Forall (Qeq c)).
    - apply (get_Forall (Qeq c)); [done|lia].
    - apply (get_Forall (Qeq c)); [done|lia]. }
  unfold calcATR. cbv zeta. cbn [atr_value].
  cut (Forall (Qeq 0)
         (ema ((get highs 0 - get lows 0)
               :: map (trueRange highs lows closes) (seq 1 (length closes - 1)))
              14)).
  { intros Hall. symmetry.
    apply (lastOf_Forall (Qeq 0)); [|done]. by unfold ema. }
  destruct (Hget 0%nat Hn) as (_ & Hh0 & Hl0).
  rewrite ema_cons.
  constructor; [rewrite Hh0, Hl0; ring|].
  apply ema_from_zero; [rewrite Hh0, Hl0; ring|].
  apply Forall_fmap, Forall_forall. intros i Hi. apply elem_of_seq in Hi.
  simpl. unfold trueRange.
  destruct (Hget i ltac:(lia)) as (_ & Hhi & Hli).
  destruct (Hget (i - 1)%nat ltac:(lia)) as (Hci & _ & _).
  rewrite Hhi, Hli, Hci.
  setoid_replace (c - c) with 0 using relation Qeq by ring. by vm_compute.
Qed.

(** X14: when all hourly highs, lows and closes are one price, the ATR is 0
    and both forecasts equal the current price, whatever the signals. *)
Theorem flat_market_forecast (c price : Q) hCloses dCloses hHighs hLows :
  valid_input price hCloses dCloses hHighs hLows ->
  Forall (Qlt 0) dCloses ->
  flat_at c hHighs hLows hCloses ->
  let p := computePrediction sqrt price hCloses dCloses hHighs hLows in
  atr p == 0 /\ oneMinute p == price /\ oneDay p == price.
Proof.
  intros (Hprice & Hne & _) _ Hflat p.
  assert (Hatr : atr p == 0).
  { change (atr p) with (atr_value (calcATR hHighs hLows hCloses 14)).
    by eapply calcATR_flat. }
  assert (Hpct : atrPct p == 0).
  { change (atrPct p) with (atr p / price). rewrite Hatr. unfold Qdiv. ring. }
  assert (H1 : oneMinute p
               = price * (1 + rawShort price p * Qmin (atrPct p * 8) 0.03))
    by reflexivity.
  assert (H2 : oneDay p
               = price * (1 + rawLong price p * Qmin (atrPct p * 80) 0.15))
    by reflexivity.
  split; [done|]. rewrite H1, H2, Hpct.
  split; rewrite Q.min_l by lra; ring.
Qed.

End EngineLaws.

(** ** The prediction history: further laws *)

Section LedgerLaws.
Import Ledger LedgerSpec StatsSpec.

Local Open Scope Z_scope.

Implicit Types (now : Z) (cd : gmap string CoinData) (e : Entry)
         (h : list Entry) (hz : Horizon).

(** X15: the reversed search of [recordPrediction] returns the entry of the
    asset after which the ledger holds no entry of that asset, and nothing
    exactly when the ledger holds no entry of the asset. *)
Theorem lastFor_spec (c : string) h :
  (forall e, lastFor c h = Some e <->
     exists h1 h2, h = h1 ++ e :: h2 /\ coin e = c /\
                   Forall (fun x => coin x <> c) h2) /\
  (lastFor c h = None <-> Forall (fun x => coin x <> c) h).
Proof.
  rewrite lastFor_mostRecent. unfold mostRecent.
  induction h as [|x h [IHs IHn]] using rev_ind.
  - split.
    + intros e. split; [done|]. intros (h1 & h2 & E & _). by destruct h1.
    + done.
  - rewrite filter_app, filter_cons, filter_nil.
    destruct (decide (coin x = c)) as [Hx|Hx].
    + rewrite last_snoc. split.
      * intros e. split.
        -- intros [= <-]. exists h, []. by rewrite Forall_nil.
        -- intros (h1 & h2 & E & He & Hh2).
           destruct h2 as [|y h2 _] using rev_ind.
           ++ apply app_inj_tail in E as [_ ->]. done.
           ++ rewrite app_comm_cons, app_assoc in E.
              apply app_inj_tail in E as [_ ->].
              apply Forall_app in Hh2 as [_ Hy]. by inversion Hy.
      * split; [done|]. intros Hall. apply Forall_app in Hall as [_ Hy].
        by inversion Hy.
    + rewrite app_nil_r. split.
      * intros e. rewrite IHs. split.
        -- intros (h1 & h2 & -> & He & Hh2). exists h1, (h2 ++ [x]).
           rewrite <- app_assoc. split_and!; [done|done|].
           apply Forall_app. split; [done|]. by constructor.
        -- intros (h1 & h2 & E & He & Hh2).
           destruct h2 as [|y h2 _] using rev_ind.
           ++ apply app_inj_tail in E as [_ ->]. done.
           ++ rewrite app_comm_cons, app_assoc in E.
              apply app_inj_tail in E as [-> ->].
              apply Forall_app in Hh2 as [Hh2 _]. by exists h1, h2.
      * rewrite IHn. rewrite Forall_app. split; [|by intros [? _]].
        intros Hall. split; [done|]. by constructor.
Qed.

Lemma mostRecent_snoc (c : string) h e :
  coin e = c -> mostRecent c (h ++ [e]) = Some e.
Proof.
  intros He. unfold mostRecent.
  rewrite filter_app, filter_cons, filter_nil.
  rewrite decide_True by done. by rewrite last_snoc.
Qed.

Lemma mostRecent_drop_snoc (c : string) h e (n : nat) :
  coin e = c -> (n <= length h)%nat ->
  mostRecent c (drop n (h ++ [e])) = Some e.
Proof.
  intros He Hn. rewrite drop_app_le by done. by apply mostRecent_snoc.
Qed.

(** X16: after a recording that went through, a second recording for the
    same asset less than 55 seconds after the first entry's timestamp
    changes nothing. *)
Theorem recordPrediction_twice now now' now2 now2' (c : string)
        (p m d p2 m2 d2 : Q) h :
  ~ throttled now c h -> now2 - now' < 55000 ->
  recordPrediction now2 now2' c p2 m2 d2 (recordPrediction now now' c p m d h)
  = recordPrediction now now' c p m d h.
Proof.
  intros Hfree Hsoon. apply recordPrediction_throttled.
  exists (newEntry now' c p m d). split; [|done].
  rewrite recordPrediction_pushes by done.
  apply mostRecent_drop_snoc; [done|]. unfold MAX_HISTORY. lia.
Qed.

Lemma tickerPrice_None cd (c : string) :
  tickerPrice cd c = None <->
  c ∉ coin_id <$> COINS \/ (cd !! c ≫= ticker) = None.
Proof.
  unfold tickerPrice.
  destruct (list_find (fun k => coin_id k = c) COINS) as [[i k]|] eqn:Hf.
  - apply list_find_Some in Hf as (Hk & <- & _).
    assert (Hin : coin_id k ∈ coin_id <$> COINS).
    { apply list_elem_of_fmap. exists k. split; [done|].
      by eapply list_elem_of_lookup_2. }
    destruct (cd !! coin_id k) as [[[t|]]|]; simpl; split; try done; eauto.
    + intros [?|?]; done.
  - split; [|done]. intros _. left. intros Hin.
    apply list_elem_of_fmap in Hin as (k & -> & Hk).
    eapply list_find_None in Hf. eapply Forall_forall in Hf; [|exact Hk]. done.
Qed.

Lemma resolveEntry_no_price now cd e :
  tickerPrice cd (coin e) = None -> resolveEntry now cd e = e.
Proof.
  intros Hp. unfold resolveEntry, resolve1d, resolve1m.
  destruct (bool_decide (actual1m e = None) && _); rewrite ?Hp;
    destruct (bool_decide (actual1d e = None) && _); by rewrite ?Hp.
Qed.

(** X17: a resolve pass leaves the ledger as it is when every entry is of an
    asset outside [COINS] or of one [coinData] has no ticker for. *)
Theorem resolveHistory_untracked now cd h :
  Forall (fun e => coin e ∉ coin_id <$> COINS \/
                   (cd !! coin e ≫= ticker) = None) h ->
  resolveHistory now cd h = h.
Proof.
  intros Hall. unfold resolveHistory.
  rewrite <- (list_fmap_id h) at 2. apply list_fmap_ext.
  intros i e Hi. eapply Forall_lookup_1 in Hall; [|exact Hi].
  apply resolveEntry_no_price. by apply tickerPrice_None.
Qed.

Lemma filter_fmap_length {A} (P Q : A -> Prop) `{!forall x, Decision (P x)}
      `{!forall x, Decision (Q x)} (f : A -> A) (l : list A) :
  (forall x, P x -> Q (f x)) ->
  (length (filter P l) <= length (filter Q (f <$> l)))%nat.
Proof.
  intros Hf. induction l as [|x l IH]; [done|].
  rewrite fmap_cons, !filter_cons.
  destruct (decide (P x)) as [Hp|Hp].
  - rewrite decide_True by auto. simpl. lia.
  - destruct (decide (Q (f x))); simpl; lia.
Qed.

Lemma inScope_resolve (flt : string) now cd h :
  inScope flt (resolveHistory now cd h) = resolveEntry now cd <$> inScope flt h.
Proof.
  unfold inScope, resolveHistory. case_bool_decide; [done|].
  induction h as [|x h IH]; [done|].
  cbn [map]. rewrite !filter_cons, resolveEntry_coin.
  destruct (decide (coin x = flt)); [by rewrite fmap_cons, IH|done].
Qed.

(** X18: a resolve pass leaves the total of every filter unchanged and never
    lowers a resolved count, and no resolved count exceeds the total. *)
Theorem getHistoryStats_after_resolve_grows (flt : string) now cd h :
  let s := getHistoryStats flt h in
  let s' := getHistoryStats flt (resolveHistory now cd h) in
  total s' = total s /\
  (resolved1m s <= resolved1m s')%nat /\ (resolved1d s <= resolved1d s')%nat /\
  (resolved1m s' <= total s')%nat /\ (resolved1d s' <= total s')%nat.
Proof.
  intros s s'. subst s s'.
  destruct (getHistoryStats_counts flt h) as (-> & -> & ->).
  destruct (getHistoryStats_counts flt (resolveHistory now cd h))
    as (-> & -> & ->).
  rewrite inScope_resolve, length_fmap. unfold resolvedIn.
  split_and!; [done| | | |];
    [| |etrans; [apply length_filter|by rewrite length_fmap] ..].
  - apply filter_fmap_length. intros e He.
    destruct (resolveEntry_keeps now cd e Short He) as [E _].
    unfold pending in *. by rewrite E.
  - apply filter_fmap_length. intros e He.
    destruct (resolveEntry_keeps now cd e Long He) as [E _].
    unfold pending in *. by rewrite E.
Qed.

Lemma Forall_filter_keep {A} (P Q : A -> Prop) `{!forall x, Decision (Q x)}
      (l : list A) :
  Forall P l -> Forall P (filter Q l).
Proof.
  rewrite !Forall_forall. intros Hall x Hx.
  apply list_elem_of_filter in Hx as [_ Hx]. by apply Hall.
Qed.

Lemma score_err_nonneg (pr : Entry -> Q) (ac : Entry -> option Q) l
      (st : nat * Q) :
  Forall (fun e => (0 < price e)%Q) l -> (0 <= st.2)%Q ->
  (0 <= (fold_left (score pr ac) l st).2)%Q.
Proof.
  intros Hl. revert st. induction Hl as [|x l Hx _ IH]; intros st He;
    [done|].
  cbn [fold_left]. apply IH. destruct st as [hit err].
  change ((score pr ac (hit, err) x).2)
    with (err + Qabs (pr x - num (ac x)) / price x * 100)%Q.
  assert (0 <= Qabs (pr x - num (ac x)) / price x)%Q.
  { apply Qle_shift_div_l; [done|]. rewrite Qmult_0_l. apply Qabs_nonneg. }
  simpl in He. lra.
Qed.

(** X19: over entries with a positive price at creation, a mean error that
    is not [null] is not negative. *)
Theorem getHistoryStats_error_nonneg (flt : string) h :
  Forall (fun e => (0 < price e)%Q) h ->
  let s := getHistoryStats flt h in
  (forall a, avgErr1m s = Some a -> (0 <= a)%Q) /\
  (forall a, avgErr1d s = Some a -> (0 <= a)%Q).
Proof.
  intros Hpos. unfold getHistoryStats.
  set (items := if bool_decide (flt = "ALL") then h
                else filter (fun k => coin k = flt) h).
  assert (Hitems : Forall (fun e => (0 < price e)%Q) items).
  { unfold items. case_bool_decide; [done|]. by apply Forall_filter_keep. }
  set (r1 := filter (fun k => actual1m k <> None) items).
  set (r2 := filter (fun k => actual1d k <> None) items).
  pose proof (score_err_nonneg pred1m actual1m r1 (0%nat, 0%Q)
                ltac:(by apply Forall_filter_keep) ltac:(simpl; lra)) as H1.
  pose proof (score_err_nonneg pred1d actual1d r2 (0%nat, 0%Q)
                ltac:(by apply Forall_filter_keep) ltac:(simpl; lra)) as H2.
  destruct (fold_left (score pred1m actual1m) r1 (0%nat, 0%Q)) as [hit1 err1].
  destruct (fold_left (score pred1d actual1d) r2 (0%nat, 0%Q)) as [hit2 err2].
  simpl in *.
  split; intros a.
  - destruct (Nat.ltb_spec 0 (length r1)) as [Hn|Hn]; [|done].
    intros [= <-]. apply Qle_shift_div_l; [by apply nat2Q_pos|lra].
  - destruct (Nat.ltb_spec 0 (length r2)) as [Hn|Hn]; [|done].
    intros [= <-]. apply Qle_shift_div_l; [by apply nat2Q_pos|lra].
Qed.

End LedgerLaws.

(** ** The cache: laws *)

Section CacheLaws.
Import Cache.

Local Open Scope Z_scope.

Context {D : Type}.

Implicit Types (cache : gmap string (CacheEntry D)) (key : string)
         (fetched : option D).

(** X21: a call of [cached] touches no other key; it fails only when the
    fetch fails, leaving the cache as it was; and what it returns is either
    the data of an entry younger than [ttl], the cache unchanged, or what
    was just fetched, stored under the key with the time of the fetch. *)
Theorem cached_never_stale now now' key ttl fetched cache r cache' :
  cached now now' key ttl fetched cache = (r, cache') ->
  (forall key', key' <> key -> cache' !! key' = cache !! key') /\
  (r = None -> fetched = None /\ cache' = cache) /\
  (forall d, r = Some d ->
     (exists e, cache !! key = Some e /\ data e = d /\ now - ts e < ttl /\
                cache' = cache) \/
     (fetched = Some d /\ cache' !! key = Some {| ts := now'; data := d |} /\
      ~ (exists e, cache !! key = Some e /\ now - ts e < ttl))).
Proof.
  unfold cached. intros Hc.
  assert (Hmiss : ~ (exists e, cache !! key = Some e /\ now - ts e < ttl) ->
            match fetched with
            | Some d => (Some d, <[key := {| ts := now'; data := d |}]> cache)
            | None => (None, cache)
            end = (r, cache') ->
            (forall key', key' <> key -> cache' !! key' = cache !! key') /\
            (r = None -> fetched = None /\ cache' = cache) /\
            (forall d, r = Some d ->
               (exists e, cache !! key = Some e /\ data e = d /\
                          now - ts e < ttl /\ cache' = cache) \/
               (fetched = Some d /\
                cache' !! key = Some {| ts := now'; data := d |} /\
                ~ (exists e, cache !! key = Some e /\ now - ts e < ttl)))).
  { intros Hstale Hm. destruct fetched as [d0|]; simplify_eq.
    - split_and!; [|done|].
      + intros key' Hne. by rewrite lookup_insert_ne.
      + intros d [= <-]. right. by rewrite lookup_insert_eq.
    - split_and!; [done|done|done]. }
  destruct (cache !! key) as [e|] eqn:He.
  - case_bool_decide as Hfresh.
    + simplify_eq. split_and!; [done|done|].
      intros d [= <-]. left. eauto.
    + apply Hmiss; [|done]. intros (e' & [= <-] & ?). done.
  - apply Hmiss; [|done]. intros (e' & ? & _). done.
Qed.

(** X22: after a call that returned [v], a further call for the key returns
    [v] without fetching and without changing the cache while the entry is
    younger than the [ttl] given, and fetches afresh otherwise. *)
Theorem cached_again now now' key ttl fetched cache v cache' :
  cached now now' key ttl fetched cache = (Some v, cache') ->
  exists e, cache' !! key = Some e /\ data e = v /\
    (forall t t' ttl2 fetched2, t - ts e < ttl2 ->
       cached t t' key ttl2 fetched2 cache' = (Some v, cache')) /\
    (forall t t' ttl2 d2, ttl2 <= t - ts e ->
       cached t t' key ttl2 (Some d2) cache'
       = (Some d2, <[key := {| ts := t'; data := d2 |}]> cache')) /\
    (forall t t' ttl2, ttl2 <= t - ts e ->
       cached t t' key ttl2 None cache' = (None, cache')).
Proof.
  intros Hc.
  assert (He : exists e, cache' !! key = Some e /\ data e = v).
  { unfold cached in Hc.
    assert (Hm : match fetched with
                 | Some d =>
                     (Some d, <[key := {| ts := now'; data := d |}]> cache)
                 | None => (None, cache)
                 end = (Some v, cache') ->
                 exists e, cache' !! key = Some e /\ data e = v).
    { destruct fetched as [d|]; [|done]. intros [= <- <-].
      eexists. by rewrite lookup_insert_eq. }
    destruct (cache !! key) as [e|] eqn:He; [|by apply Hm].
    case_bool_decide; [|by apply Hm]. simplify_eq. eauto. }
  destruct He as (e & He & Hd). exists e. split_and!; [done|done|..].
  - intros t t' ttl2 f2 Hfresh. unfold cached. rewrite He.
    rewrite bool_decide_true by done. by rewrite Hd.
  - intros t t' ttl2 d2 Hold. unfold cached. rewrite He.
    rewrite bool_decide_false by lia. done.
  - intros t t' ttl2 Hold. unfold cached. rewrite He.
    rewrite bool_decide_false by lia. done.
Qed.

End CacheLaws.

Section CacheKeys.
Import Cache.

(** X23: the cache keys of tickers, of candle series and of the list of all
    tickers never coincide, and two symbols never share a ticker key. *)
Theorem cache_keys_apart (s s' interval : string) (limit : nat) :
  tickerKey s <> klinesKey s' interval limit /\
  tickerKey s <> allTickersKey /\
  klinesKey s' interval limit <> allTickersKey /\
  (tickerKey s = tickerKey s' -> s = s').
Proof.
  unfold tickerKey, klinesKey, allTickersKey. split_and!; try done.
  intros H. by simplify_eq/=.
Qed.

End CacheKeys.

(** ** The altcoin list: laws *)

Section AltsLaws.
Import Alts AltsSpec.

Section SortLaws.
Context {A : Type} (cmp : A -> A -> Q) (key : A -> Q).
Hypothesis cmp_key : forall a b, cmp a b == key b - key a.

Lemma insertBy_perm (x : A) (l : list A) : insertBy cmp x l ≡ₚ x :: l.
Proof.
  induction l as [|y l IH]; simpl; [done|].
  destruct (Qleb (cmp x y) 0); [done|]. rewrite IH. apply Permutation_swap.
Qed.

Lemma sortBy_perm (l : list A) : sortBy cmp l ≡ₚ l.
Proof.
  induction l as [|x l IH]; simpl; [done|].
  rewrite insertBy_perm. by rewrite IH.
Qed.

Lemma insertBy_sorted (x : A) (l : list A) :
  Sorted.StronglySorted (fun a b => key b <= key a) l ->
  Sorted.StronglySorted (fun a b => key b <= key a) (insertBy cmp x l).
Proof.
  induction 1 as [|y l Hl IH Hy]; simpl.
  - repeat constructor.
  - destruct (Qleb (cmp x y) 0) eqn:E.
    + apply Qle_bool_iff in E. rewrite cmp_key in E.
      constructor; [by constructor|].
      constructor; [lra|]. eapply Forall_impl; [exact Hy|].
      intros z Hz. simpl in Hz. lra.
    + apply not_true_iff_false in E. unfold Qleb in E.
      rewrite Qle_bool_iff, cmp_key in E.
      constructor; [done|]. rewrite insertBy_perm.
      constructor; [lra|done].
Qed.

Lemma sortBy_sorted (l : list A) :
  Sorted.StronglySorted (fun a b => key b <= key a) (sortBy cmp l).
Proof.
  induction l as [|x l IH]; simpl; [constructor|]. by apply insertBy_sorted.
Qed.

End SortLaws.

Lemma eligible_true (t : AltTicker) :
  eligible t = true <->
  endsWith (symbol t) "USDT" = true /\ isExcluded (symbol t) = false /\
  1000000 <= quoteVolume t.
Proof.
  unfold eligible.
  destruct (endsWith (symbol t) "USDT"); simpl;
    [|split; [done|by intros (? & _)]].
  destruct (isExcluded (symbol t)); [split; [done|by intros (_ & ? & _)]|].
  destruct (Qltb (quoteVolume t) 1000000) eqn:E.
  - apply Qltb_lt in E. split; [done|]. intros (_ & _ & ?). lra.
  - apply not_true_iff_false in E. rewrite Qltb_lt in E.
    split; [|done]. intros _. split_and!; [done|done|]. lra.
Qed.

Lemma filterAndSortAlts_sorted (mode : string) (tickers : list AltTicker) :
  exists sorted,
    filterAndSortAlts mode tickers = take 12 sorted /\
    sorted ≡ₚ List.filter eligible tickers /\
    Sorted.StronglySorted (fun a b => rank mode b <= rank mode a) sorted.
Proof.
  unfold filterAndSortAlts, rank.
  destruct (bool_decide (mode = "gainers"));
    [|destruct (bool_decide (mode = "losers"))];
    eexists; (split; [reflexivity|]);
    (split; [apply sortBy_perm|apply sortBy_sorted; intros a b; ring]).
Qed.

(** X24: the altcoin list has at most 12 tickers, each from the input, a USDT
    pair that is not excluded (in particular none of [EXCLUDE_SYMBOLS]),
    with a 24h quote volume of at least 1,000,000. *)
Theorem filterAndSortAlts_members (mode : string) (tickers : list AltTicker) :
  let out := filterAndSortAlts mode tickers in
  (length out <= 12)%nat /\
  forall t, t ∈ out ->
    t ∈ tickers /\ endsWith (symbol t) "USDT" = true /\
    isExcluded (symbol t) = false /\ (symbol t ∉ EXCLUDE_SYMBOLS) /\
    1000000 <= quoteVolume t.
Proof.
  intros out. subst out.
  destruct (filterAndSortAlts_sorted mode tickers) as (sorted & -> & Hp & _).
  split; [rewrite length_take; lia|].
  intros t Ht. apply (subseteq_take 12 sorted) in Ht.
  rewrite Hp in Ht. apply list_elem_of_In, filter_In in Ht as [Hin He].
  apply eligible_true in He as (Hu & Hx & Hv).
  split_and!; try done; [by apply list_elem_of_In|].
  intros Hset. unfold isExcluded in Hx. by rewrite bool_decide_true in Hx.
Qed.

(** X25: the altcoin list is sorted by the mode's rank, largest first, no
    eligible ticker left out ranks above a listed one, and with at most 12
    eligible tickers all of them are listed. *)
Theorem filterAndSortAlts_top (mode : string) (tickers : list AltTicker) :
  let out := filterAndSortAlts mode tickers in
  Sorted.StronglySorted (fun a b => rank mode b <= rank mode a) out /\
  (forall t u, t ∈ tickers -> eligible t = true -> t ∉ out -> u ∈ out ->
     rank mode t <= rank mode u) /\
  ((length (List.filter eligible tickers) <= 12)%nat ->
     out ≡ₚ List.filter eligible tickers).
Proof.
  intros out. subst out.
  destruct (filterAndSortAlts_sorted mode tickers) as (sorted & -> & Hp & Hs).
  split_and!.
  - rewrite <- (take_drop 12 sorted) in Hs.
    by apply sorting.StronglySorted_app_1_l in Hs.
  - intros t u Ht He Hnot Hu.
    assert (Hin : t ∈ sorted).
    { rewrite Hp. apply list_elem_of_In, filter_In. split; [|done].
      by apply list_elem_of_In. }
    rewrite <- (take_drop 12 sorted) in Hin, Hs.
    apply elem_of_app in Hin as [?|Hd]; [done|].
    eapply (sorting.StronglySorted_app_1_elem_of _ _ _ u t) in Hs; done.
  - intros Hlen. rewrite take_ge; [done|]. by rewrite Hp.
Qed.

End AltsLaws.

(** ** The sparkline: laws *)

Section ChartLaws.
Import Chart SeriesSpec ChartSpec.

Lemma minOf_le (data : list Q) (x0 : Q) :
  foldr Qmin x0 data <= x0 /\ Forall (Qle (foldr Qmin x0 data)) data.
Proof.
  induction data as [|x data [IH0 IH]]; simpl; [split; [lra|done]|].
  pose proof (Q.le_min_l x (foldr Qmin x0 data)).
  pose proof (Q.le_min_r x (foldr Qmin x0 data)).
  split; [lra|]. constructor; [done|].
  eapply Forall_impl; [exact IH|]. intros y Hy. simpl in Hy. lra.
Qed.

Lemma maxOf_ge (data : list Q) (x0 : Q) :
  x0 <= foldr Qmax x0 data /\ Forall (fun x => x <= foldr Qmax x0 data) data.
Proof.
  induction data as [|x data [IH0 IH]]; simpl; [split; [lra|done]|].
  pose proof (Q.le_max_l x (foldr Qmax x0 data)).
  pose proof (Q.le_max_r x (foldr Qmax x0 data)).
  split; [lra|]. constructor; [done|].
  eapply Forall_impl; [exact IH|]. intros y Hy. simpl in Hy. lra.
Qed.

Lemma minOf_pos (data : list Q) (x0 : Q) :
  0 < x0 -> Forall (Qlt 0) data -> 0 < foldr Qmin x0 data.
Proof.
  intros H0. induction 1 as [|x data Hx _ IH]; simpl; [done|].
  by apply Q.min_glb_lt.
Qed.

Lemma nat2Q_frac (i n : nat) :
  (i <= n)%nat -> (0 < n)%nat ->
  within 0 1 (inject_Z (Z.of_nat i) / inject_Z (Z.of_nat n)).
Proof.
  intros Hi Hn.
  assert (0 < inject_Z (Z.of_nat n)).
  { change 0 with (inject_Z 0). rewrite <- Zlt_Qlt. lia. }
  assert (0 <= inject_Z (Z.of_nat i)).
  { change 0 with (inject_Z 0). rewrite <- Zle_Qle. lia. }
  assert (inject_Z (Z.of_nat i) <= inject_Z (Z.of_nat n)).
  { rewrite <- Zle_Qle. lia. }
  split; [apply Qle_shift_div_l|apply Qle_shift_div_r]; lra.
Qed.

(** X26: for positive closes on a canvas at least 4 high, [drawSparkline]
    draws nothing with fewer than 2 closes, and otherwise one point per
    close of the last 48, every point within the canvas width and between
    2 and [H - 2] vertically. *)
Theorem sparkline_in_canvas (closes : list Q) (W H : Q) :
  Forall (Qlt 0) closes -> 0 <= W -> 4 <= H ->
  match sparklinePoints closes W H with
  | None => (length closes < 2)%nat
  | Some pts =>
      (2 <= length closes)%nat /\
      length pts = (length closes `min` 48)%nat /\
      Forall (inCanvas W H) pts
  end.
Proof.
  intros Hpos HW HH. unfold sparklinePoints. cbv zeta.
  set (data := drop (length closes - 48) closes).
  assert (Hlen : length data = (length closes `min` 48)%nat).
  { unfold data. rewrite length_drop. lia. }
  assert (Hdata : Forall (Qlt 0) data) by by apply Forall_drop.
  destruct (Nat.ltb_spec (length data) 2) as [Hshort|Hlong]; [lia|].
  split; [lia|]. split; [by rewrite length_imap|].
  assert (H0 : 0 < get data 0) by (apply (get_Forall (Qlt 0)); [done|lia]).
  pose proof (minOf_pos data (get data 0) H0 Hdata) as Hmpos.
  destruct (minOf_le data (get data 0)) as [Hm0 Hmin].
  destruct (maxOf_ge data (get data 0)) as [HM0 Hmax].
  fold (minOf data) in Hmpos, Hm0, Hmin. fold (maxOf data) in HM0, Hmax.
  set (lo := minOf data * 0.9995). set (hi := maxOf data * 1.0005).
  assert (Hrange : 0 < hi - lo) by (unfold lo, hi; lra).
  assert (Hor : orElse (Some (hi - lo)) 1 = hi - lo).
  { unfold orElse, Qeqb. destruct (Qeq_bool (hi - lo) 0) eqn:E; [|done].
    apply Qeq_bool_iff in E. lra. }
  rewrite Hor. apply Forall_lookup. intros i pt Hi.
  rewrite list_lookup_imap in Hi.
  destruct (data !! i) as [v|] eqn:Hv; [|done]. simpl in Hi.
  injection Hi as <-.
  pose proof (lookup_lt_Some _ _ _ Hv) as Hilt.
  assert (Hvlo : minOf data <= v) by by eapply Forall_lookup_1 in Hmin.
  assert (Hvhi : v <= maxOf data)
    by (eapply Forall_lookup_1 in Hmax; [|done]; done).
  assert (Hvpos : 0 < v) by by eapply Forall_lookup_1 in Hdata.
  destruct (nat2Q_frac i (length data - 1)) as [Hx0 Hx1]; [lia|lia|].
  assert (Ht0 : 0 <= (v - lo) / (hi - lo))
    by (apply Qle_shift_div_l; [done|]; unfold lo, hi; lra).
  assert (Ht1 : (v - lo) / (hi - lo) <= 1)
    by (apply Qle_shift_div_r; [done|]; unfold lo, hi; lra).
  unfold inCanvas, within. cbn [fst snd].
  set (a := inject_Z (Z.of_nat i) / inject_Z (Z.of_nat (length data - 1))) in *.
  set (t := (v - lo) / (hi - lo)) in *. clearbody a t.
  split_and!; nra.
Qed.

End ChartLaws.

(** ** The Bollinger bands *)

Section BollingerLaws.
Import Indicators IndicatorSpec SeriesSpec.

Variable sqrt : Q -> Q.

Lemma bb_bands_lookup (data : list Q) (period : nat) (mult : Q) (i : nat) :
  let b := calcBollinger sqrt data period mult in
  bb_mid b !! i = sma data period !! i /\
  bb_upper b !! i
  = (fun m => (bb_band sqrt data period mult i m).1) <$> sma data period !! i /\
  bb_lower b !! i
  = (fun m => (bb_band sqrt data period mult i m).2) <$> sma data period !! i.
Proof.
  unfold calcBollinger. cbv zeta. cbn [bb_mid bb_upper bb_lower].
  rewrite !list_lookup_fmap, !list_lookup_imap.
  by destruct (sma data period !! i).
Qed.

(** X27: for a period of at least 1, the three Bollinger bands are [null] at
    every index before [period - 1]; from there on all three are numbers,
    and with a non-negative square root and a non-negative multiplier the
    lower band is at most the middle band and the middle band at most the
    upper band. *)
Theorem calcBollinger_bands (data : list Q) (period : nat) (mult : Q)
        (i : nat) :
  (1 <= period)%nat -> (i < length data)%nat ->
  let b := calcBollinger sqrt data period mult in
  ((i < period - 1)%nat ->
     bb_mid b !! i = Some None /\ bb_upper b !! i = Some None /\
     bb_lower b !! i = Some None) /\
  ((period - 1 <= i)%nat ->
     exists m u l,
       bb_mid b !! i = Some (Some m) /\ bb_upper b !! i = Some (Some u) /\
       bb_lower b !! i = Some (Some l) /\
       ((forall x, 0 <= sqrt x) -> 0 <= mult -> l <= m /\ m <= u)).
Proof.
  intros Hp Hi b.
  destruct (bb_bands_lookup data period mult i) as (Hm & Hu & Hl).
  fold b in Hm, Hu, Hl. rewrite Hm, Hu, Hl. clear Hm Hu Hl. split.
  - intros Hlt. rewrite sma_lookup by done.
    by destruct (Nat.ltb_spec i (period - 1)); [|lia].
  - intros Hge. destruct (sma_entry data period i Hp Hi Hge) as (m & -> & _).
    simpl. eexists m, _, _. split_and!; [done|done|done|].
    intros Hs Hmult.
    match goal with
    | |- context [sqrt ?x] => pose proof (Hs x) as Hx; set (sd := sqrt x) in *
    end.
    split; nra.
Qed.

End BollingerLaws.

(** ** The history table *)

Section TableLaws.
Import Ledger LedgerSpec StatsSpec HistoryTable.

Lemma classOf_result (pred : Q) (actual : option Q) (price : Q) :
  classOf (resultOf pred actual price)
  = match actual with
    | Some a => if bool_decide (dirOf pred price = dirOf a price)
                then "result-hit" else "result-miss"
    | None => "result-pending"
    end.
Proof.
  unfold resultOf. destruct actual as [a|]; [|done]. by case_bool_decide.
Qed.

Lemma rowCls_result (hz : Horizon) (h : Entry) (r : Row) :
  r = (let m1 := resultOf (pred1m h) (actual1m h) (price h) in
       let d1 := resultOf (pred1d h) (actual1d h) (price h) in
       {| shown := h; m1Result := m1; m1Cls := classOf m1;
          d1Result := d1; d1Cls := classOf d1 |}) ->
  rowCls hz r
  = match actual hz h with
    | Some a => if bool_decide (dirOf (forecast hz h) (price h)
                                = dirOf a (price h))
                then "result-hit" else "result-miss"
    | None => "result-pending"
    end.
Proof.
  intros ->. destruct hz; cbn [rowCls m1Cls d1Cls actual forecast];
    apply classOf_result.
Qed.

Lemma filter_fmap_count {A B} (f : A -> B) (P : A -> Prop) (Q : B -> Prop)
      `{!forall x, Decision (P x)} `{!forall y, Decision (Q y)} (l : list A) :
  (forall x, P x <-> Q (f x)) ->
  length (filter Q (f <$> l)) = length (filter P l).
Proof.
  intros HPQ. induction l as [|x l IH]; [done|].
  rewrite fmap_cons, !filter_cons.
  destruct (decide (P x)) as [Hp|Hp]; destruct (decide (Q (f x))) as [Hq|Hq];
    simpl; try lia; by apply HPQ in Hp || apply HPQ in Hq.
Qed.

Lemma score_hits (pr : Entry -> Q) (ac : Entry -> option Q) l (st : nat * Q) :
  (fold_left (score pr ac) l st).1
  = (st.1 + length (filter (fun e => dirOf (pr e) (price e)
                                     = dirOf (num (ac e)) (price e)) l))%nat.
Proof.
  revert st. induction l as [|x l IH]; intros [hit err]; [simpl; lia|].
  cbn [fold_left]. rewrite IH, filter_cons.
  change ((score pr ac (hit, err) x).1)
    with (if bool_decide (dirOf (pr x) (price x) = dirOf (num (ac x)) (price x))
          then S hit else hit).
  case_bool_decide; [rewrite decide_True by done|rewrite decide_False by done];
    simpl; lia.
Qed.

Lemma getHistoryStats_accuracy (hz : Horizon) (flt : string) h :
  accuracy hz (getHistoryStats flt h)
  = let res := filter (fun e => actual hz e <> None) (inScope flt h) in
    let hits := length (filter (fun e => dirOf (forecast hz e) (price e)
                                         = dirOf (num (actual hz e)) (price e))
                               res) in
    if (0 <? length res)%nat
    then Some (nat2Q hits / nat2Q (length res) * 100) else None.
Proof.
  unfold getHistoryStats, inScope. cbv zeta.
  set (items := if bool_decide (flt = "ALL") then h
                else filter (fun k => coin k = flt) h).
  pose proof (score_hits pred1m actual1m
                (filter (fun k => actual1m k <> None) items) (O, 0)) as H1.
  pose proof (score_hits pred1d actual1d
                (filter (fun k => actual1d k <> None) items) (O, 0)) as H2.
  destruct (fold_left (score pred1m actual1m) _ _) as [hit1 err1].
  destruct (fold_left (score pred1d actual1d) _ _) as [hit2 err2].
  cbn [fst Nat.add] in H1, H2. subst hit1 hit2. by destruct hz.
Qed.

(** X28: the history table shows at most 30 rows, the entries in scope from
    the newest backwards; a row's result is marked pending exactly when its
    entry is unresolved for that horizon; and as long as no more than 30
    entries are in scope, the hit rate of the summary is the share of hit
    rows among the resolved rows of the table. *)
Theorem renderHistory_rows (hz : Horizon) (flt : string) (h : list Entry) :
  let rows := renderHistory flt h in
  (length rows <= 30)%nat /\
  shown <$> rows = take 30 (reverse (inScope flt h)) /\
  (forall r, r ∈ rows ->
     (rowCls hz r = "result-pending" <-> pending hz (shown r))) /\
  ((total (getHistoryStats flt h) <= 30)%nat ->
     tableRate hz rows = accuracy hz (getHistoryStats flt h)).
Proof.
  intros rows. split_and!.
  - unfold rows, renderHistory. cbv zeta. rewrite length_map, length_take. lia.
  - unfold rows, renderHistory, inScope. cbv zeta.
    change (@map Entry Row) with (@fmap list _ Entry Row).
    rewrite <- list_fmap_compose. apply list_fmap_id.
  - intros r Hr. unfold rows, renderHistory in Hr. cbv zeta in Hr.
    change (@map Entry Row) with (@fmap list _ Entry Row) in Hr.
    apply list_elem_of_fmap in Hr as (e & -> & _).
    erewrite (rowCls_result hz e) by reflexivity. unfold pending. cbn [shown].
    destruct (actual hz e); [|done]. by case_bool_decide.
  - intros Htot. destruct (getHistoryStats_counts flt h) as (Ht & _).
    rewrite Ht in Htot. clear Ht.
    rewrite getHistoryStats_accuracy. unfold tableRate, rows, renderHistory.
    cbv zeta. fold (inScope flt h).
    change (@map Entry Row) with (@fmap list _ Entry Row).
    rewrite take_ge by (rewrite length_reverse; lia).
    rewrite list_filter_filter.
    erewrite (filter_fmap_count _
                (fun e => dirOf (forecast hz e) (price e)
                          = dirOf (num (actual hz e)) (price e)
                          /\ actual hz e <> None)
                (fun r => rowCls hz r = "result-hit")).
    2:{ intros e. erewrite (rowCls_result hz e) by reflexivity.
        destruct (actual hz e) as [a|]; cbn [num default].
        - case_bool_decide; split; [done|by split|by intros [? _]|done].
        - split; [by intros [_ ?]|done]. }
    erewrite (filter_fmap_count _ (fun e => actual hz e <> None)
                (fun r => rowCls hz r <> "result-pending")).
    2:{ intros e. erewrite (rowCls_result hz e) by reflexivity.
        destruct (actual hz e); [|done]. by case_bool_decide. }
    by rewrite !filter_reverse, !length_reverse.
Qed.

End TableLaws.

(** ** Worked examples *)

Import Indicators IndicatorSpec Engine EngineSpec Ledger LedgerSpec.

(** A forecast for BTC recorded at time 0 at price 100: a resolve pass after
    30 seconds leaves the short horizon pending, a pass after 61 seconds with
    the price at 102 resolves it to 102. *)
Lemma resolveHistory_transitions_witness :
  let e := newEntry 0 "BTC" 100 101 105 in
  let h := recordPrediction 0 0 "BTC" 100 101 105 [] in
  let cd : gmap string CoinData :=
    {[ "BTC" := {| ticker := Some {| lastPrice := 102 |} |} ]} in
  h !! 0%nat = Some e /\
  (exists e', resolveHistory 30000 cd h !! 0%nat = Some e' /\
              pending Short e') /\
  (exists e', resolveHistory 61000 cd h !! 0%nat = Some e' /\
              actual Short e' = Some 102 /\
              resolvedAt Short e' = Some 61000%Z).
Proof.
  intros e h cd. split; [reflexivity|]. split.
  - destruct (resolveHistory_transitions 30000 cd h 0 e Short eq_refl)
      as (e' & He' & Hpend & _ & _).
    exists e'. split; [exact He'|].
    destruct (Hpend eq_refl) as [Hiff _].
    unfold pending in *. destruct (actual Short e') as [a|]; [|reflexivity].
    assert (Hel : (duration Short <= 30000 - ts e)%Z).
    { apply Hiff. discriminate. }
    simpl in Hel. lia.
  - destruct (resolveHistory_transitions 61000 cd h 0 e Short eq_refl)
      as (e' & He' & Hpend & _ & _).
    exists e'. split; [exact He'|].
    destruct (Hpend eq_refl) as [Hiff Hval].
    apply Hval, Hiff. split; [simpl; lia|]. exists 102. reflexivity.
Defined.

(** A ledger holding 100 entries of another asset takes a BTC entry and drops
    its oldest entry; recording BTC again 30 seconds later changes nothing. *)
Lemma recordPrediction_ledger_witness :
  let old := newEntry 0 "ETH" 50 51 52 in
  let h := old :: replicate 99 (newEntry 1 "ETH" 50 51 52) in
  let h1 := recordPrediction 1000 1000 "BTC" 100 101 105 h in
  h1 = replicate 99 (newEntry 1 "ETH" 50 51 52)
       ++ [newEntry 1000 "BTC" 100 101 105] /\
  recordPrediction 31000 31000 "BTC" 100 102 106 h1 = h1.
Proof.
  intros old h h1. split.
  - destruct (recordPrediction_ledger 1000 1000 "BTC" 100 101 105 h)
      as (_ & Hpush & _).
    destruct Hpush as [-> _]; [|reflexivity].
    intros (e & He & _). vm_compute in He. discriminate.
  - destruct (recordPrediction_ledger 31000 31000 "BTC" 100 102 106 h1)
      as (Hthr & _).
    apply Hthr. exists (newEntry 1000 "BTC" 100 101 105).
    split; [by vm_compute|]. simpl. lia.
Defined.

(** A two-candle history close to its daily average: the short composite
    score is below 1 in magnitude and the short forecast lies within 3% of
    the price. *)
Lemma forecast_deviation_witness :
  valid_input 100 [99; 100] [98; 100] [100; 101] [98; 99] /\
  Forall (Qlt 0) [98; 100] /\
  forall sq,
    let p := computePrediction sq 100 [99; 100] [98; 100] [100; 101]
                               [98; 99] in
    100 * (1 - 0.03) <= oneMinute p /\ oneMinute p <= 100 * (1 + 0.03).
Proof.
  assert (Hv : valid_input 100 [99; 100] [98; 100] [100; 101] [98; 99]).
  { unfold valid_input. repeat split; done. }
  assert (Hd : Forall (Qlt 0) [98; 100]) by (repeat constructor).
  split; [exact Hv|]. split; [exact Hd|]. intros sq p.
  destruct (forecast_deviation sq 100 [99; 100] [98; 100] [100; 101]
              [98; 99] Hv Hd ltac:(by vm_compute))
    as (_ & _ & Hcap & _).
  apply Hcap. by vm_compute.
Defined.

(** Two closes, 100 and 101: the last bands are 101 raised and lowered by
    2%. *)
Lemma calcBollinger_short_series_witness :
  (length [100; 101] < 20)%nat /\
  forall sq,
    let b := calcBollinger sq [100; 101] 20 2 in
    lastUpper b = 101 * 1.02 /\ lastLower b = 101 * 0.98.
Proof.
  assert (Hlen : (length [100; 101] < 20)%nat) by (simpl; lia).
  split; [exact Hlen|]. intros sq b.
  destruct (calcBollinger_short_series sq [100; 101] 20 2 ltac:(done) Hlen)
    as (_ & Hu & Hl & _).
  split; [exact Hu|exact Hl].
Defined.

(** The same forecast scored after its short horizon resolved at 102: the
    forecast 101 and the actual 102 are both above 100, one hit out of one;
    the long horizon has no metrics yet. *)
Example getHistoryStats_after_resolve :
  let cd : gmap string CoinData :=
    {[ "BTC" := {| ticker := Some {| lastPrice := 102 |} |} ]} in
  let h := resolveHistory 61000 cd
             (recordPrediction 0 0 "BTC" 100 101 105 []) in
  let s := getHistoryStats "ALL" h in
  resolved1m s = 1%nat /\ accuracy1m s = Some 100 /\
  resolved1d s = 0%nat /\ accuracy1d s = None /\ avgErr1d s = None.
Proof. by vm_compute. Qed.

(** ** Worked examples of the further laws *)

Import SeriesSpec StatsSpec AltsSpec ChartSpec.

Lemma ema_shape_sign_witness :
  length (ema [1; 2; 3] 3) = 3%nat /\
  head (ema [1; 2; 3] 3) = Some 1 /\
  Forall (Qle 0) (ema [1; 2; 3] 3).
Proof.
  destruct (ema_shape_sign [1; 2; 3] 3 ltac:(done) ltac:(lra))
    as (Hlen & Hhead & Hpos & _).
  split; [exact Hlen|]. split; [exact Hhead|].
  apply Hpos. repeat constructor; lra.
Defined.

Lemma sma_shape_witness :
  sma [1; 2; 3; 4] 2 !! 0%nat = Some None /\
  exists m, sma [1; 2; 3; 4] 2 !! 3%nat = Some (Some m) /\ 0 <= m.
Proof.
  destruct (sma_shape [1; 2; 3; 4] 2 ltac:(lia)) as [_ Hi].
  split.
  - apply (Hi 0%nat); simpl; lia.
  - destruct (Hi 3%nat ltac:(simpl; lia)) as [_ Hdef].
    destruct (Hdef ltac:(lia)) as (m & Hm & Hpos & _).
    exists m. split; [exact Hm|]. apply Hpos. repeat constructor; lra.
Defined.

Lemma calcRSI_range_witness :
  within 0 100
    (rsi_value (calcRSI [5; 6; 4; 7; 8; 6; 9; 9; 7; 10; 11; 9; 12; 13; 12; 14]
                        14)).
Proof.
  apply (calcRSI_range [5; 6; 4; 7; 8; 6; 9; 9; 7; 10; 11; 9; 12; 13; 12; 14]
                       14).
  lia.
Defined.

Lemma calcRSI_rising_witness :
  rsi_value (calcRSI [1; 2; 3; 4; 5; 6; 7; 8; 9; 10; 11; 12; 13; 14; 15; 16]
                     14) = 100.
Proof.
  apply calcRSI_rising; [lia|simpl; lia|].
  intros i [Hlo Hhi]. simpl in Hhi.
  do 16 (destruct i as [|i]; [try lia; by vm_compute|]). lia.
Defined.

Lemma calcRSI_falling_witness :
  rsi_value (calcRSI [16; 15; 14; 13; 12; 11; 10; 9; 8; 7; 6; 5; 4; 3; 2; 1]
                     14) == 0.
Proof.
  apply calcRSI_falling; [lia|simpl; lia|].
  intros i [Hlo Hhi]. simpl in Hhi.
  do 16 (destruct i as [|i]; [try lia; by vm_compute|]). lia.
Defined.

Lemma calcMACD_histogram_witness :
  macd_histogram (calcMACD [1; 2; 4])
  = macd_line (calcMACD [1; 2; 4]) - macd_signal (calcMACD [1; 2; 4]).
Proof. by apply (calcMACD_histogram [1; 2; 4]). Defined.

Lemma calcStochastic_range_witness :
  within 0 100 (stoch_k (calcStochastic [3; 5] [1; 2] [2; 4] 2 1)) /\
  within 0 100 (stoch_d (calcStochastic [3; 5] [1; 2] [2; 4] 2 1)).
Proof.
  apply calcStochastic_range; [done|lia|lia|].
  intros i Hi. simpl in Hi.
  do 2 (destruct i as [|i]; [split; by vm_compute|]). lia.
Defined.

Lemma calcStochastic_warmup_witness :
  stoch_k (calcStochastic [3; 5] [1; 2] [2; 4] 14 3) == 50 /\
  stoch_d (calcStochastic [3; 5] [1; 2] [2; 4] 14 3) == 50.
Proof. apply calcStochastic_warmup; [done|simpl; lia|lia]. Defined.

Lemma calcATR_series_witness :
  length (atr_series (calcATR [3; 5] [1; 2] [2; 4] 14)) = 2%nat /\
  Forall (Qle 0) (atr_series (calcATR [3; 5] [1; 2] [2; 4] 14)) /\
  0 <= atr_value (calcATR [3; 5] [1; 2] [2; 4] 14).
Proof.
  apply (calcATR_series [3; 5] [1; 2] [2; 4]); [done|by vm_compute].
Defined.

Lemma strengths_within_witness :
  valid_input 100 [99; 100] [98; 100] [100; 101] [98; 99] /\
  Forall (Qlt 0) [98; 100] /\
  forall sq,
    Forall (fun s => within 0 100 (strength s))
      (Object_values
         (signals (computePrediction sq 100 [99; 100] [98; 100] [100; 101]
                                     [98; 99]))).
Proof.
  assert (Hv : valid_input 100 [99; 100] [98; 100] [100; 101] [98; 99]).
  { unfold valid_input. repeat split; done. }
  assert (Hd : Forall (Qlt 0) [98; 100]) by (repeat constructor).
  split; [exact Hv|]. split; [exact Hd|]. intros sq.
  apply (strengths_within sq 100 [99; 100] [98; 100] [100; 101] [98; 99]
           Hv Hd).
  by vm_compute.
Defined.

Lemma flat_market_forecast_witness :
  flat_at 100 [100; 100] [100; 100] [100; 100] /\
  forall sq,
    let p := computePrediction sq 101 [100; 100] [99; 100] [100; 100]
                               [100; 100] in
    atr p == 0 /\ oneMinute p == 101 /\ oneDay p == 101.
Proof.
  assert (Hf : flat_at 100 [100; 100] [100; 100] [100; 100]).
  { unfold flat_at. split_and!; try done; repeat constructor. }
  split; [exact Hf|]. intros sq.
  apply (flat_market_forecast sq 100 101 [100; 100] [99; 100] [100; 100]
                              [100; 100]); [|repeat constructor|exact Hf].
  unfold valid_input. split_and!; try done; lra.
Defined.

Lemma recordPrediction_twice_witness :
  recordPrediction 30000 30000 "BTC" 100 102 106
    (recordPrediction 0 0 "BTC" 100 101 105 [])
  = recordPrediction 0 0 "BTC" 100 101 105 [].
Proof.
  apply recordPrediction_twice; [|lia].
  intros (e & He & _). discriminate He.
Defined.

Lemma resolveHistory_untracked_witness :
  let cd : gmap string CoinData :=
    {[ "BTC" := {| ticker := Some {| Ledger.lastPrice := 102 |} |} ]} in
  let h := [newEntry 0 "DOGE" 1 2 3; newEntry 0 "ETH" 1 2 3] in
  resolveHistory 90000000 cd h = h.
Proof.
  intros cd h. apply resolveHistory_untracked.
  constructor.
  - left. rewrite list_elem_of_In. simpl.
    intros [H|[H|[H|[]]]]; discriminate H.
  - constructor; [|constructor]. right. reflexivity.
Defined.

Lemma getHistoryStats_error_nonneg_witness :
  let cd : gmap string CoinData :=
    {[ "BTC" := {| ticker := Some {| Ledger.lastPrice := 102 |} |} ]} in
  let h := resolveHistory 61000 cd [newEntry 0 "BTC" 100 101 105] in
  exists a, avgErr1m (getHistoryStats "BTC" h) = Some a /\ (0 <= a)%Q.
Proof.
  intros cd h. eexists. split; [vm_compute; reflexivity|].
  assert (Hpos : Forall (fun e => (0 < Ledger.price e)%Q) h)
    by repeat constructor.
  destruct (getHistoryStats_error_nonneg "BTC" h Hpos) as [H1 _].
  apply H1. vm_compute. reflexivity.
Defined.

Lemma run_capacity_witness :
  (length (run [Record 0 0 "BTC" 1 2 3; Resolve 61000 ∅; Clear;
                Record 70000 70000 "ETH" 1 2 3]
               (loadHistory None)) <= MAX_HISTORY)%nat.
Proof. apply (run_capacity _ None []). by left. Defined.

Lemma cached_never_stale_witness :
  let cache : gmap string (Cache.CacheEntry Q) :=
    {[ "t:ETHUSDT" := {| Cache.ts := 0%Z; Cache.data := 3 |} ]} in
  let cache' := (Cache.cached 100 105 "t:BTCUSDT" 20000 (Some 7) cache).2 in
  cache' !! "t:ETHUSDT" = cache !! "t:ETHUSDT".
Proof.
  intros cache cache'.
  apply (cached_never_stale 100 105 "t:BTCUSDT" 20000 (Some 7) cache
           (Some 7) cache' eq_refl).
  done.
Defined.

Lemma cached_again_witness :
  let c1 := (Cache.cached 100 105 "t:BTCUSDT" 20000 (Some 7%Q) ∅).2 in
  Cache.cached 20104 20200 "t:BTCUSDT" 20000 (Some 9) c1 = (Some 7, c1) /\
  Cache.cached 20105 20200 "t:BTCUSDT" 20000 None c1 = (None, c1).
Proof.
  intros c1.
  assert (Hcall : Cache.cached 100 105 "t:BTCUSDT" 20000 (Some 7%Q) ∅
                  = (Some 7, c1)) by (vm_compute; reflexivity).
  destruct (cached_again 100 105 "t:BTCUSDT" 20000 (Some 7) ∅ 7 c1 Hcall)
    as (e & He & _ & Hhit & _ & Hfail).
  assert (Hts : Cache.ts e = 105%Z).
  { vm_compute in He. by injection He as <-. }
  split.
  - apply Hhit. rewrite Hts. lia.
  - apply Hfail. rewrite Hts. lia.
Defined.

Lemma sparkline_in_canvas_witness :
  match Chart.sparklinePoints [1; 2; 3] 100 48 with
  | None => (length [1; 2; 3] < 2)%nat
  | Some pts =>
      (2 <= length [1; 2; 3])%nat /\
      length pts = (length [1; 2; 3] `min` 48)%nat /\
      Forall (inCanvas 100 48) pts
  end.
Proof.
  apply (sparkline_in_canvas [1; 2; 3] 100 48); [|lra|lra].
  repeat constructor.
Defined.

(** Two closes of 100 and 102 have the mean 101 and the variance 1, where
    the absolute value agrees with the square root: the bands at index 1 are
    ordered. *)
Lemma calcBollinger_bands_witness :
  (1 <= 2)%nat /\ (1 < length [100; 102; 101])%nat /\
  let b := calcBollinger Qabs [100; 102; 101] 2 2 in
  bb_mid b !! 0%nat = Some None /\
  exists m u l,
    bb_mid b !! 1%nat = Some (Some m) /\
    bb_upper b !! 1%nat = Some (Some u) /\
    bb_lower b !! 1%nat = Some (Some l) /\ l <= m /\ m <= u.
Proof.
  assert (Hp : (1 <= 2)%nat) by lia.
  assert (Hi : (1 < length [100; 102; 101])%nat) by (simpl; lia).
  split; [exact Hp|]. split; [exact Hi|]. intros b. split; [done|].
  destruct (calcBollinger_bands Qabs [100; 102; 101] 2 2 1 Hp Hi)
    as [_ Hband].
  destruct (Hband ltac:(simpl; lia)) as (m & u & l & Hm & Hu & Hl & Hord).
  exists m, u, l. split; [exact Hm|]. split; [exact Hu|]. split; [exact Hl|].
  apply Hord; [intros x; apply Qabs_nonneg|lra].
Defined.

(** A ledger of two BTC forecasts made at 100: the older one resolved at 102
    after a forecast of 101, the newer one still open.  The table shows the
    newer one first, as pending, and the older one as a hit. *)
Example renderHistory_two_rows :
  let older := {| ts := 0; coin := "BTC"; price := 100; pred1m := 101;
                  pred1d := 105; actual1m := Some 102; actual1d := None;
                  actual1mTs := Some 61000%Z; actual1dTs := None |} in
  let newer := {| ts := 60000; coin := "BTC"; price := 100; pred1m := 99;
                  pred1d := 105; actual1m := None; actual1d := None;
                  actual1mTs := None; actual1dTs := None |} in
  (fun r => (ts (HistoryTable.shown r), HistoryTable.m1Cls r))
    <$> HistoryTable.renderHistory "BTC" [older; newer]
  = [(60000%Z, "result-pending"); (0%Z, "result-hit")].
Proof. vm_compute. reflexivity. Qed.
